(** * goframe: e-paper image conversion (epd-dither-resize-spectra6.py, scripts/dither.py)

    A shallow embedding of the two Python scripts: the raw 4-bit packing loop,
    the palette table construction, the palette string parser and the geometry
    normalisation, with the properties the specification states about them. *)

From Stdlib Require Import ZArith List Bool Lia Ascii String QArith Qround FinFun.
From Stdlib Require Import SpecFloat.
Import ListNotations.
Open Scope Z_scope.

(** ** Python exceptions and fallible computations *)

Inductive exn : Type :=
| ValueError
| IndexError
| AssertionError
| ZeroDivisionError
| RuntimeError.

Inductive result (A : Type) : Type :=
| Ok (a : A)
| Raise (e : exn).

Arguments Ok {A} a.
Arguments Raise {A} e.

Definition bind {A B : Type} (r : result A) (k : A -> result B) : result B :=
  match r with
  | Ok a => k a
  | Raise e => Raise e
  end.

Notation "x <- r ;; k" := (bind r (fun x => k))
  (at level 61, r at next level, right associativity).
Notation "' pat <- r ;; k" := (bind r (fun x => match x with pat => k end))
  (at level 61, pat pattern, r at next level, right associativity).

(** [for x in l: body] over a state, stopping at the first exception. *)
Fixpoint for_each {A S : Type} (l : list A) (body : S -> A -> result S) (s : S)
  : result S :=
  match l with
  | [] => Ok s
  | a :: t => s' <- body s a ;; for_each t body s'
  end.

(** [reversed(range(n))] *)
Definition reversed_range (n : nat) : list nat := rev (seq 0 n).

(** [l[i]] for a non-negative index. *)
Definition subscript {A : Type} (l : list A) (i : nat) : result A :=
  match nth_error l i with
  | Some a => Ok a
  | None => Raise IndexError
  end.

(** [assert b] *)
Definition py_assert (b : bool) : result unit :=
  if b then Ok tt else Raise AssertionError.

(** [bytearray.append(v)]: the value must be in [range(256)]. *)
Definition bytearray_append (buf : list Z) (v : Z) : result (list Z) :=
  if (0 <=? v) && (v <? 256) then Ok (buf ++ [v]) else Raise ValueError.

(** ** Colours and images *)

Definition rgb : Type := (Z * Z * Z)%type.

Definition rgb_eqb (c1 c2 : rgb) : bool :=
  let '(r1, g1, b1) := c1 in
  let '(r2, g2, b2) := c2 in
  (r1 =? r2) && (g1 =? g2) && (b1 =? b2).

(** [l.index(v)]: position of the first element equal to [v]. *)
Fixpoint list_index (v : rgb) (l : list rgb) : result nat :=
  match l with
  | [] => Raise ValueError
  | c :: t => if rgb_eqb c v then Ok O else i <- list_index v t ;; Ok (S i)
  end.

(** A PIL image in mode RGB: its size and the pixel access object
    [pixels[x, y]]. *)
Record image : Type := mkImage {
  width : nat;
  height : nat;
  getpixel : nat -> nat -> rgb
}.

(** [pixels[x, y] = c] *)
Definition putpixel (im : image) (x y : nat) (c : rgb) : image :=
  mkImage (width im) (height im)
    (fun x' y' => if Nat.eqb x' x && Nat.eqb y' y then c else getpixel im x' y').

(** The image whose rows are the given lists (row 0 first). *)
Definition of_rows (w : nat) (rows : list (list rgb)) : image :=
  mkImage w (List.length rows) (fun x y => nth x (nth y rows []) (0, 0, 0)).

Definition to_rows {A : Type} (w h : nat) (f : nat -> nat -> A) : list (list A) :=
  map (fun y => map (fun x => f x y) (seq 0 w)) (seq 0 h).

Definition rows_of (im : image) : list (list rgb) :=
  to_rows (width im) (height im) (getpixel im).

(** ** The constant tables of epd-dither-resize-spectra6.py *)

Definition SPECTRA6_REAL_WORD_RGB : list rgb :=
  [ (25, 30, 33); (232, 232, 232); (239, 222, 68);
    (178, 19, 24); (33, 87, 186); (18, 95, 32) ].

Definition SPECTRA6_DEVICE_RGB : list rgb :=
  [ (0, 0, 0); (255, 255, 255); (255, 255, 0);
    (255, 0, 0); (0, 0, 255); (0, 255, 0) ].

Definition SPECTRA6_DEVICE_INDEX_TO_RAW : list Z := [0; 1; 2; 3; 5; 6].

(** ** The raw packing loop (epd-dither-resize-spectra6.py, lines 190-203)

    The loop is written over the three tables, which the script fixes to the
    SPECTRA6 constants above. *)

Record pack_state : Type := mkPack {
  pixels : image;
  raw_pending : Z;
  raw_bytes : list Z
}.

Section Pack.

Variable REAL_WORD_RGB : list rgb.
Variable DEVICE_RGB : list rgb.
Variable DEVICE_INDEX_TO_RAW : list Z.

(** The body of the inner loop at column [x] of row [y]. *)
Definition pack_pixel (y : nat) (st : pack_state) (x : nat) : result pack_state :=
  let c := getpixel (pixels st) x y in
  index <- list_index c REAL_WORD_RGB ;;
  device <- subscript DEVICE_RGB index ;;
  let pixels' := putpixel (pixels st) x y device in
  raw_value <- subscript DEVICE_INDEX_TO_RAW index ;;
  _ <- py_assert (raw_value <? 8) ;;
  if Z.land (Z.of_nat x) 1 =? 0 then
    Ok (mkPack pixels' raw_value (raw_bytes st))
  else
    buf <- bytearray_append (raw_bytes st)
             (Z.lor (Z.shiftl (raw_pending st) 4) raw_value) ;;
    Ok (mkPack pixels' (raw_pending st) buf).

Definition pack_row (w : nat) (st : pack_state) (y : nat) : result pack_state :=
  for_each (reversed_range w) (pack_pixel y) st.

(** The two nested loops, from [raw_bytes = bytearray()] on. *)
Definition pack (quantized_image : image) : result pack_state :=
  for_each (reversed_range (height quantized_image))
    (pack_row (width quantized_image))
    (mkPack quantized_image 0 []).

End Pack.

Definition pack_spectra6 : image -> result pack_state :=
  pack SPECTRA6_REAL_WORD_RGB SPECTRA6_DEVICE_RGB SPECTRA6_DEVICE_INDEX_TO_RAW.

Definition bytes_of (r : result pack_state) : result (list Z) :=
  st <- r ;; Ok (raw_bytes st).

(** ** Palette tables *)

Definition flatten_colors (colors : list rgb) : list Z :=
  flat_map (fun c : rgb => let '(r, g, b) := c in [r; g; b]) colors.

(** scripts/dither.py, [build_palette_table]. *)
Definition max_colors : nat := 256.

Definition build_palette_table (colors : list rgb) : result (list Z) :=
  let colors1 :=
    if (max_colors <? List.length colors)%nat then firstn max_colors colors
    else colors in
  colors2 <-
    (if (List.length colors1 <? max_colors)%nat then
       first <- subscript colors1 0 ;;
       Ok (colors1 ++ repeat first (max_colors - List.length colors1))
     else Ok colors1) ;;
  let flat := flatten_colors colors2 in
  if negb (List.length flat =? 768)%nat then Raise RuntimeError else Ok flat.

(** epd-dither-resize-spectra6.py, lines 170-173: the flattened palette
    followed by 250 copies of its first colour. *)
Definition spectra6_palette_of (real_word_rgb : list rgb) : result (list Z) :=
  first <- subscript real_word_rgb 0 ;;
  Ok (flatten_colors real_word_rgb ++ flatten_colors (repeat first 250)).

(** [putpalette]: the flat table read back as colours, three values each. *)
Fixpoint palette_colors (flat : list Z) : list rgb :=
  match flat with
  | r :: g :: b :: t => (r, g, b) :: palette_colors t
  | _ => []
  end.

(** ** Quantization without dithering *)

Definition dist2 (c p : rgb) : Z :=
  let '(r, g, b) := c in
  let '(pr, pg, pb) := p in
  (r - pr) * (r - pr) + (g - pg) * (g - pg) + (b - pb) * (b - pb).

(** Modelled from the spec: the nearest-colour search of section 4.2 (the
    scripts call Pillow's [quantize], which is not part of the repository):
    a linear scan for the palette entry of least squared Euclidean distance,
    the lowest index winning ties. *)
Fixpoint nearest_from (c : rgb) (best : nat) (best_d : Z) (i : nat)
  (table : list rgb) : nat :=
  match table with
  | [] => best
  | p :: t =>
      if dist2 c p <? best_d then nearest_from c i (dist2 c p) (S i) t
      else nearest_from c best best_d (S i) t
  end.

Definition nearest_index (table : list rgb) (c : rgb) : nat :=
  match table with
  | [] => O
  | p :: t => nearest_from c O (dist2 c p) 1 t
  end.

(** Modelled from the spec: [quantize] of section 4.2 with dithering disabled:
    the grid of nearest palette indices. *)
Definition quantize_grid (table : list rgb) (im : image) : nat -> nat -> nat :=
  fun x y => nearest_index table (getpixel im x y).

(** Modelled from the spec: the RGB image rebuilt from the grid, every pixel
    replaced by its palette entry ([convert("RGB")] in the scripts). *)
Definition quantize_no_dither (table : list rgb) (im : image) : image :=
  mkImage (width im) (height im)
    (fun x y => nth (quantize_grid table im x y) table (0, 0, 0)).

(** scripts/dither.py, [main] with [--dither none]: the palette table is
    built from the parsed colours and handed to the quantizer. *)
Definition dither_none (colors : list rgb) (img : image) : result image :=
  pal_table <- build_palette_table colors ;;
  Ok (quantize_no_dither (palette_colors pal_table) img).

(** ** Python strings and [int] *)

Definition str : Type := list ascii.

Definition lit (s : string) : str := list_ascii_of_string s.

(** [str.isspace] on the code points below 256. *)
Definition isspace (c : ascii) : bool :=
  let n := N_of_ascii c in
  ((9 <=? n) && (n <=? 13) || (28 <=? n) && (n <=? 32)
   || (n =? 133) || (n =? 160))%N.

(** The characters [int] skips around a literal: the ASCII whitespace of
    C, and the Unicode spaces of a non-ASCII string. *)
Definition isspace_int (c : ascii) : bool :=
  let n := N_of_ascii c in
  ((9 <=? n) && (n <=? 13) || (n =? 32) || (n =? 133) || (n =? 160))%N.

Fixpoint lstrip_by (space : ascii -> bool) (s : str) : str :=
  match s with
  | [] => []
  | c :: t => if space c then lstrip_by space t else s
  end.

Fixpoint rstrip_by (space : ascii -> bool) (s : str) : str :=
  match s with
  | [] => []
  | c :: t =>
      match rstrip_by space t with
      | [] => if space c then [] else [c]
      | r => c :: r
      end
  end.

(** [s.strip()] *)
Definition strip (s : str) : str := rstrip_by isspace (lstrip_by isspace s).

(** [s.split(sep)] for a one-character separator. *)
Fixpoint split (sep : ascii) (s : str) : list str :=
  match s with
  | [] => [[]]
  | c :: t =>
      if Ascii.eqb c sep then [] :: split sep t
      else match split sep t with
           | h :: r => (c :: h) :: r
           | [] => [[c]]
           end
  end.

Definition digit_of (c : ascii) : option Z :=
  let n := N_of_ascii c in
  if ((48 <=? n) && (n <=? 57))%N then Some (Z.of_N n - 48) else None.

(** The digits of a decimal literal, single underscores allowed between
    digits. *)
Fixpoint parse_digits (acc : Z) (after_underscore : bool) (s : str) : option Z :=
  match s with
  | [] => if after_underscore then None else Some acc
  | c :: t =>
      if Ascii.eqb c "_"%char then
        if after_underscore then None else parse_digits acc true t
      else
        match digit_of c with
        | Some d => parse_digits (10 * acc + d) false t
        | None => None
        end
  end.

(** [int(s)] in base 10: surrounding whitespace, an optional sign, digits. *)
Definition py_int (s : str) : result Z :=
  let s := rstrip_by isspace_int (lstrip_by isspace_int s) in
  let '(sign, body) :=
    match s with
    | c :: t =>
        if Ascii.eqb c "+"%char then (1, t)
        else if Ascii.eqb c "-"%char then (-1, t)
        else (1, s)
    | [] => (1, s)
    end in
  match body with
  | c :: _ =>
      match digit_of c, parse_digits 0 false body with
      | Some _, Some v => Ok (sign * v)
      | _, _ => Raise ValueError
      end
  | [] => Raise ValueError
  end.

(** ** scripts/dither.py, [parse_palette] *)

(** The body of the [for idx, entry in enumerate(entries)] loop. *)
Definition parse_entry (colors : list rgb) (entry : str) : result (list rgb) :=
  let parts := map strip (split ","%char entry) in
  match parts with
  | [p0; p1; p2] =>
      '(r, g, b) <-
        (match (r <- py_int p0 ;; g <- py_int p1 ;; b <- py_int p2 ;; Ok (r, g, b)) with
         | Raise ValueError => Raise ValueError
         | other => other
         end) ;;
      _ <- for_each [r; g; b]
             (fun (_ : unit) c =>
                if (c <? 0) || (255 <? c) then Raise ValueError else Ok tt) tt ;;
      Ok (colors ++ [(r, g, b)])
  | _ => Raise ValueError
  end.

Definition parse_palette (palette_str : str) : result (list rgb) :=
  match palette_str with
  | [] => Raise ValueError
  | _ =>
      let entries :=
        map strip
          (filter (fun e => negb (Nat.eqb (List.length (strip e)) 0))
             (split ";"%char palette_str)) in
      colors <- for_each entries parse_entry [] ;;
      if Nat.eqb (List.length colors) 0 then Raise ValueError else Ok colors
  end.

(** ** Python floats

    A Python float is an IEEE-754 binary64 number.  It is represented by the
    rational it denotes, and every arithmetic operation rounds its exact
    result to the nearest binary64 value, ties to even.  The values met here
    are quotients and products of image sizes, far from the overflow and
    subnormal ranges, which [fl64] leaves out: where Python raises
    OverflowError (an int too large for a float, a quotient beyond the
    binary64 range) or rounds to a subnormal, [fl64] goes on with 53 bits.
    The operations below are Python's as long as the integers they are
    given are below 2^53 in magnitude, the bound the theorems on them
    assume. *)

Definition fl64 (q : Q) : Q :=
  let q := Qred q in
  let n := Qnum q in
  let d := Zpos (Qden q) in
  if n =? 0 then 0%Q else
  let a := Z.abs n in
  let k := Z.log2 a - Z.log2 d in
  let l := if d * 2 ^ Z.max 0 k <=? a * 2 ^ Z.max 0 (- k) then k else k - 1 in
  let e := l - 52 in
  let num := a * 2 ^ Z.max 0 (- e) in
  let den := d * 2 ^ Z.max 0 e in
  let m := num / den in
  let r := num mod den in
  let m' :=
    if 2 * r <? den then m
    else if den <? 2 * r then m + 1
    else if Z.even m then m else m + 1 in
  Qred (Qmake (Z.sgn n * m' * 2 ^ Z.max 0 e) (Z.to_pos (2 ^ Z.max 0 (- e)))).

(** [float(z)] *)
Definition float_of_int (z : Z) : Q := fl64 (inject_Z z).

(** [a / b] on two ints *)
Definition truediv (a b : Z) : result Q :=
  if b =? 0 then Raise ZeroDivisionError
  else Ok (fl64 (Qmake (Z.sgn b * a) (Z.to_pos (Z.abs b)))).

Definition float_mul (x y : Q) : Q := fl64 (x * y)%Q.
Definition float_sub (x y : Q) : Q := fl64 (x - y)%Q.

(** [int(x)]: truncation towards zero *)
Definition int_of_float (x : Q) : Z := Z.quot (Qnum x) (Zpos (Qden x)).

(** [max(a, b)] *)
Definition py_max (a b : Q) : Q := if Qle_bool b a then a else b.

(** [round(x)]: to the nearest integer, ties to even *)
Definition py_round (x : Q) : Z :=
  let f := Qfloor x in
  let r := (x - inject_Z f)%Q in
  if Qle_bool r (1 # 2) then
    if Qle_bool (1 # 2) r then (if Z.even f then f else f + 1) else f
  else f + 1.

(** ** The Pillow operations the script calls *)

Definition size (im : image) : Z * Z :=
  (Z.of_nat (width im), Z.of_nat (height im)).

Definition size_eqb (s1 s2 : Z * Z) : bool :=
  (fst s1 =? fst s2) && (snd s1 =? snd s2).

(** [Image.new("RGB", size, color)] *)
Definition Image_new (sz : Z * Z) (color : rgb) : result image :=
  let '(w, h) := sz in
  if (w <? 0) || (h <? 0) then Raise ValueError
  else Ok (mkImage (Z.to_nat w) (Z.to_nat h) (fun _ _ => color)).

(** [im.rotate(180)] *)
Definition Image_rotate_180 (im : image) : image :=
  mkImage (width im) (height im)
    (fun x y => getpixel im (width im - 1 - x)%nat (height im - 1 - y)%nat).

Inductive rotate_angle : Type := angle_90 | angle_270.

(** [im.rotate(angle, expand=True)] for the two angles the command line
    admits: a counter-clockwise quarter turn, or a clockwise one. *)
Definition Image_rotate_expand (angle : rotate_angle) (im : image) : image :=
  match angle with
  | angle_90 =>
      mkImage (height im) (width im)
        (fun x y => getpixel im (width im - 1 - y)%nat x)
  | angle_270 =>
      mkImage (height im) (width im)
        (fun x y => getpixel im y (height im - 1 - x)%nat)
  end.

(** [dst.paste(src, (left, top))]: the part of [src] that falls inside
    [dst] replaces its pixels. *)
Definition Image_paste (dst src : image) (left top : Z) : image :=
  mkImage (width dst) (height dst)
    (fun x y =>
       let sx := Z.of_nat x - left in
       let sy := Z.of_nat y - top in
       if (0 <=? sx) && (sx <? Z.of_nat (width src))
          && (0 <=? sy) && (sy <? Z.of_nat (height src))
       then getpixel src (Z.to_nat sx) (Z.to_nat sy)
       else getpixel dst x y).

(** [im.crop(box)] *)
Definition Image_crop (im : image) (box : Z * Z * Z * Z) : image :=
  let '(l, t, r, b) := box in
  mkImage (Z.to_nat (r - l)) (Z.to_nat (b - t))
    (fun x y =>
       let sx := Z.of_nat x + l in
       let sy := Z.of_nat y + t in
       if (0 <=? sx) && (sx <? Z.of_nat (width im))
          && (0 <=? sy) && (sy <? Z.of_nat (height im))
       then getpixel im (Z.to_nat sx) (Z.to_nat sy)
       else (0, 0, 0)).

Inductive display_mode : Type := scale | cut.

Definition white : rgb := (255, 255, 255).

Section Geometry.

(** The resampling filter of [resize]: the colour of pixel [(x, y)] of the
    image resized to [w] by [h]. *)
Variable resample : image -> nat -> nat -> nat -> nat -> rgb.

(** [im.resize(size)]: the image's own size gives a copy; otherwise a size
    with a side below 1 is refused ("height and width must be > 0"). *)
Definition Image_resize (im : image) (sz : Z * Z) : result image :=
  let '(w, h) := sz in
  if size_eqb (size im) sz then Ok im
  else if (w <? 1) || (h <? 1) then Raise ValueError
  else Ok (mkImage (Z.to_nat w) (Z.to_nat h)
             (resample im (Z.to_nat w) (Z.to_nat h))).

(** The size [ImageOps.contain] resizes to: the largest one of the
    image's aspect ratio inside [sz]. *)
Definition contain_size (im : image) (sz : Z * Z) : result (Z * Z) :=
  let '(w, h) := size im in
  im_ratio <- truediv w h ;;
  dest_ratio <- truediv (fst sz) (snd sz) ;;
  if negb (Qeq_bool im_ratio dest_ratio) then
    if negb (Qle_bool im_ratio dest_ratio) then
      r <- truediv h w ;;
      let new_height := py_round (float_mul r (float_of_int (fst sz))) in
      Ok (if negb (new_height =? snd sz) then (fst sz, new_height) else sz)
    else
      r <- truediv w h ;;
      let new_width := py_round (float_mul r (float_of_int (snd sz))) in
      Ok (if negb (new_width =? fst sz) then (new_width, snd sz) else sz)
  else Ok sz.

Definition ImageOps_contain (im : image) (sz : Z * Z) : result image :=
  sz' <- contain_size im sz ;;
  Image_resize im sz'.

(** [ImageOps.pad(im, size, color=color, centering=(0.5, 0.5))] *)
Definition ImageOps_pad (im : image) (sz : Z * Z) (color : rgb) : result image :=
  resized <- ImageOps_contain im sz ;;
  if size_eqb (size resized) sz then Ok resized
  else
    out <- Image_new sz color ;;
    if negb (Z.of_nat (width resized) =? fst sz) then
      let x := py_round (float_mul
                 (float_of_int (fst sz - Z.of_nat (width resized))) (1 # 2)) in
      Ok (Image_paste out resized x 0)
    else
      let y := py_round (float_mul
                 (float_of_int (snd sz - Z.of_nat (height resized))) (1 # 2)) in
      Ok (Image_paste out resized 0 y).

(** ** Geometry (epd-dither-resize-spectra6.py, lines 117-164) *)

(** Lines 117-128: the optional half turn and the orientation fix. *)
Definition orient (input_image : image) (target_width target_height : Z)
  (rotate_180 : bool) (angle : rotate_angle) : image * (Z * Z) :=
  let '(width0, height0) := size input_image in
  let input_image :=
    if rotate_180 then Image_rotate_180 input_image else input_image in
  if negb (Bool.eqb (height0 <? width0) (target_height <? target_width)) then
    let input_image := Image_rotate_expand angle input_image in
    (input_image, size input_image)
  else (input_image, (width0, height0)).

(** Lines 131-136: the size the image is scaled to. *)
Definition scale_size (width height target_width target_height : Z)
  : result (Z * Z) :=
  rw <- truediv target_width width ;;
  rh <- truediv target_height height ;;
  let scale_ratio := py_max rw rh in
  let resized_width := int_of_float (float_mul (float_of_int width) scale_ratio) in
  let resized_height := int_of_float (float_mul (float_of_int height) scale_ratio) in
  Ok (resized_width, resized_height).

(** Lines 147-157: the [padding] and [box] tuples of the cut mode. *)
Definition cut_fill (width height target_width target_height : Z)
  : result ((Z * Z * Z * Z) * (Z * Z * Z * Z)) :=
  a <- truediv width height ;;
  b <- truediv target_width target_height ;;
  if Qle_bool b a then
    q <- truediv (height * target_width) target_height ;;
    let delta_width := int_of_float (float_sub q (float_of_int width)) in
    Ok ((delta_width / 2, 0, delta_width - delta_width / 2, 0),
        (0, 0, width, height))
  else
    q <- truediv (width * target_height) target_width ;;
    let delta_height := int_of_float (float_sub q (float_of_int height)) in
    Ok ((0, delta_height / 2, 0, delta_height - delta_height / 2),
        (0, 0, width, height)).

Definition normalize (input_image : image) (target_width target_height : Z)
  (rotate_180 : bool) (angle : rotate_angle) (mode : display_mode)
  : result image :=
  let '(input_image, (width, height)) :=
    orient input_image target_width target_height rotate_180 angle in
  match mode with
  | scale =>
      '(resized_width, resized_height) <-
        scale_size width height target_width target_height ;;
      output_image <- Image_resize input_image (resized_width, resized_height) ;;
      resized_image <- Image_new (target_width, target_height) white ;;
      let left := (target_width - resized_width) / 2 in
      let top := (target_height - resized_height) / 2 in
      Ok (Image_paste resized_image output_image left top)
  | cut =>
      '(padding, box) <- cut_fill width height target_width target_height ;;
      ImageOps_pad (Image_crop input_image box)
        (target_width, target_height) white
  end.

(** ** The whole conversion with [--dither 0], over the three tables *)

Definition convert_no_dither (real_word_rgb device_rgb : list rgb)
  (device_index_to_raw : list Z) (input_image : image)
  (target_width target_height : Z) (rotate_180 : bool)
  (angle : rotate_angle) (mode : display_mode)
  : result (list (list nat) * pack_state) :=
  resized_image <-
    normalize input_image target_width target_height rotate_180 angle mode ;;
  palette <- spectra6_palette_of real_word_rgb ;;
  let table := palette_colors palette in
  let quantized_image := quantize_no_dither table resized_image in
  st <- pack real_word_rgb device_rgb device_index_to_raw quantized_image ;;
  Ok (to_rows (width resized_image) (height resized_image)
        (quantize_grid table resized_image), st).

End Geometry.

(** A nearest-neighbour filter, standing for Pillow's bicubic one where a
    concrete filter is needed. *)
Definition nearest_resample (im : image) (w h x y : nat) : rgb :=
  getpixel im (x * width im / w)%nat (y * height im / h)%nat.

(** ** Definitions used to state the properties *)

(** The pixels in the order the packing loop visits them: rows from the last
    to the first, columns from the last to the first. *)
Definition scan_order (w h : nat) : list (nat * nat) :=
  flat_map (fun y => map (fun x => (x, y)) (reversed_range w)) (reversed_range h).

Section PackSpec.

Variable REAL_WORD_RGB : list rgb.
Variable DEVICE_RGB : list rgb.
Variable DEVICE_INDEX_TO_RAW : list Z.

(** The table lookups and the assertion of one iteration. *)
Definition lookup (c : rgb) : result (rgb * Z) :=
  index <- list_index c REAL_WORD_RGB ;;
  device <- subscript DEVICE_RGB index ;;
  raw_value <- subscript DEVICE_INDEX_TO_RAW index ;;
  _ <- py_assert (raw_value <? 8) ;;
  Ok (device, raw_value).

(** What one iteration does to [raw_pending] and [raw_bytes]. *)
Definition emit (x : nat) (raw_value : Z) (pb : Z * list Z)
  : result (Z * list Z) :=
  if Z.land (Z.of_nat x) 1 =? 0 then Ok (raw_value, snd pb)
  else
    buf <- bytearray_append (snd pb) (Z.lor (Z.shiftl (fst pb) 4) raw_value) ;;
    Ok (fst pb, buf).

Definition scan_step (pb : Z * list Z) (xc : nat * rgb) : result (Z * list Z) :=
  '(_, raw_value) <- lookup (snd xc) ;; emit (fst xc) raw_value pb.

(** The raw value the tables give a colour (0 for a colour they lack). *)
Definition raw_of (c : rgb) : Z :=
  match list_index c REAL_WORD_RGB with
  | Ok i => nth i DEVICE_INDEX_TO_RAW 0
  | Raise _ => 0
  end.

End PackSpec.

Definition pending_and_bytes (r : result pack_state) : result (Z * list Z) :=
  st <- r ;; Ok (raw_pending st, raw_bytes st).

(** Half of [delta] rounded to the nearest integer, ties to the even one:
    [delta // 2], and one more when [delta] is 3 modulo 4. *)
Definition round_half (delta : Z) : Z :=
  delta / 2 + (if delta mod 4 =? 3 then 1 else 0).

(** The size normalisation asks Pillow's [resize] for. *)
Definition requested_size (im : image) (width height target_width target_height : Z)
  (mode : display_mode) : result (Z * Z) :=
  match mode with
  | scale => scale_size width height target_width target_height
  | cut =>
      '(_, box) <- cut_fill width height target_width target_height ;;
      contain_size (Image_crop im box) (target_width, target_height)
  end.

(** The specification's reading of a valid palette string: the entries are
    the non-blank pieces between semicolons, and an entry is valid when it
    has exactly three comma-separated fields, each of them, blanks around it
    apart, an integer in 0..255. *)
Definition palette_entries (s : str) : list str :=
  filter (fun e => negb (Nat.eqb (List.length e) 0)) (map strip (split ";"%char s)).

Definition in_byte_range (r : result Z) : option Z :=
  match r with
  | Ok v => if (0 <=? v) && (v <=? 255) then Some v else None
  | Raise _ => None
  end.

Definition entry_color (entry : str) : option rgb :=
  match split ","%char entry with
  | [p0; p1; p2] =>
      match in_byte_range (py_int (strip p0)), in_byte_range (py_int (strip p1)),
            in_byte_range (py_int (strip p2)) with
      | Some r, Some g, Some b => Some (r, g, b)
      | _, _, _ => None
      end
  | _ => None
  end.

Fixpoint all_colors (entries : list str) : option (list rgb) :=
  match entries with
  | [] => Some []
  | e :: t =>
      match entry_color e, all_colors t with
      | Some c, Some cs => Some (c :: cs)
      | _, _ => None
      end
  end.

(** The Standard Library's IEEE-754 binary64 operations, to compare [fl64]
    with. *)
Definition b64_of_Z (z : Z) : spec_float := binary_normalize 53 1024 z 0 false.

Definition Q_of_b64 (f : spec_float) : Q :=
  match f with
  | S754_finite s m e =>
      Qred (Qmake ((if s then -1 else 1) * Zpos m * 2 ^ Z.max 0 e)
                  (Z.to_pos (2 ^ Z.max 0 (- e))))
  | _ => 0%Q
  end.

(** A palette of 257 distinct colours: 256 reds, then a dark green. *)
Definition palette_257 : list rgb :=
  map (fun i => (Z.of_nat i, 0, 0)) (seq 0 256) ++ [(0, 1, 0)].

(** ** The size argument (epd-dither-resize-spectra6.py, lines 76-78) *)

(** [c.lower()] on the code points below 256. *)
Definition py_lower_char (c : ascii) : ascii :=
  let n := N_of_ascii c in
  if ((65 <=? n) && (n <=? 90)
      || (192 <=? n) && (n <=? 222) && negb (n =? 215))%N
  then ascii_of_N (n + 32) else c.

Definition py_lower (s : str) : str := map py_lower_char s.

(** [s.replace(old, new)] for one-character [old] and [new]. *)
Definition py_replace (old new : ascii) (s : str) : str :=
  map (fun c => if Ascii.eqb c old then new else c) s.

(** [list(map(f, l))] *)
Fixpoint map_result {A B : Type} (f : A -> result B) (l : list A)
  : result (list B) :=
  match l with
  | [] => Ok []
  | a :: t => b <- f a ;; bs <- map_result f t ;; Ok (b :: bs)
  end.

(** [target_width, target_height =
     list(map(int, args.size.lower().replace("*", "x").split("x")))] *)
Definition parse_size (size_arg : str) : result (Z * Z) :=
  ints <- map_result py_int
            (split "x"%char (py_replace "*"%char "x"%char (py_lower size_arg))) ;;
  match ints with
  | [target_width; target_height] => Ok (target_width, target_height)
  | _ => Raise ValueError
  end.

(** The characters the size argument takes as its separator. *)
Definition is_size_separator (c : ascii) : bool :=
  Ascii.eqb c "x"%char || Ascii.eqb c "X"%char || Ascii.eqb c "*"%char.

(** What [lower] and [replace] together make of one character. *)
Definition size_norm_char (c : ascii) : ascii :=
  let c' := py_lower_char c in
  if Ascii.eqb c' "*"%char then "x"%char else c'.

(** ** scripts/dither.py, [main] *)

Inductive dither_arg : Type := fs | none.

Section Main.

(** Pillow's part of [main]: decoding the input to RGB, installing the
    palette table, quantizing and converting back to RGB, encoding as PNG. *)
Variable Image_open_RGB : list Z -> result image.
Variable putpalette : list Z -> result unit.
Variable quantize_RGB : dither_arg -> list Z -> image -> result image.
Variable save_PNG : image -> result (list Z).

(** The exit status and the bytes written to stdout, for the bytes read
    from stdin and the two arguments. *)
Definition main (raw : list Z) (palette : str) (dither : dither_arg)
  : Z * list Z :=
  match raw with
  | [] => (1, [])
  | _ =>
      match Image_open_RGB raw with
      | Raise _ => (2, [])
      | Ok img =>
          match (colors <- parse_palette palette ;;
                 pal_table <- build_palette_table colors ;;
                 _ <- putpalette pal_table ;;
                 Ok pal_table) with
          | Raise _ => (3, [])
          | Ok pal_table =>
              match (q <- quantize_RGB dither pal_table img ;; save_PNG q) with
              | Raise _ => (4, [])
              | Ok out => (0, out)
              end
          end
      end
  end.

End Main.

(** ** Further definitions used to state properties *)

(** The two 4-bit halves of each byte, high half first. *)
Definition nibbles (bytes : list Z) : list Z :=
  flat_map (fun b => [Z.shiftr b 4; Z.land b 15]) bytes.

(** Columns of alternating parity, an odd one first. *)
Inductive alternating : list (nat * rgb) -> Prop :=
| alternating_nil : alternating []
| alternating_cons o e l :
    Nat.odd (fst o) = true -> Nat.odd (fst e) = false ->
    alternating l -> alternating (o :: e :: l).

Definition byte_value (v : Z) : Prop := 0 <= v <= 255.

Definition channels (c : rgb) : list Z := let '(r, g, b) := c in [r; g; b].

(** * Properties *)

(** ** Examples *)

Example parse_palette_two_colors :
  parse_palette (lit "0,0,0;255,255,255") = Ok [(0, 0, 0); (255, 255, 255)].
Proof. reflexivity. Qed.

Example parse_palette_blanks_and_signs :
  parse_palette (lit " 0 , +0 ,0_0;; ;255,255,2_5_5 ;")
  = Ok [(0, 0, 0); (255, 255, 255)].
Proof. reflexivity. Qed.

Example parse_palette_rejects :
  map (fun s => parse_palette (lit s))
    [" ; ;"; "0,0,256"; "0,0,-1"; "0,0"; "0,0,0,0"; "0,0,1__0"; "0,0,x";
     "0,0,1 2"]%string
  = repeat (Raise ValueError) 8
  /\ parse_palette [] = Raise ValueError.
Proof. split; reflexivity. Qed.

Example split_keeps_empty_pieces :
  split ";"%char (lit "a;;b;") = [lit "a"; []; lit "b"; []].
Proof. reflexivity. Qed.

Example build_palette_table_two_colors :
  build_palette_table [(1, 2, 3); (4, 5, 6)]
  = Ok ([1; 2; 3; 4; 5; 6] ++ List.concat (repeat [1; 2; 3] 254)).
Proof. vm_compute. reflexivity. Qed.

Example build_palette_table_empty :
  build_palette_table [] = Raise IndexError.
Proof. reflexivity. Qed.

Example nearest_index_tie_lowest :
  nearest_index [(0, 0, 0); (2, 0, 0); (0, 0, 0)] (1, 0, 0) = O.
Proof. reflexivity. Qed.

Example pack_4x1 :
  bytes_of (pack_spectra6
              (of_rows 4 [ [(25, 30, 33); (232, 232, 232);
                            (239, 222, 68); (178, 19, 24)] ]))
  = Ok [3; 33].
Proof. vm_compute. reflexivity. Qed.

Example cut_fill_640x480_to_800x480 :
  cut_fill 640 480 800 480 = Ok ((0, -48, 0, -48), (0, 0, 640, 480)).
Proof. vm_compute. reflexivity. Qed.

Example scale_size_640x480_to_800x480 :
  scale_size 640 480 800 480 = Ok (800, 600).
Proof. vm_compute. reflexivity. Qed.

(** ** Loops *)

Lemma for_each_app {A S : Type} (l1 l2 : list A) (body : S -> A -> result S) s :
  for_each (l1 ++ l2) body s = (s' <- for_each l1 body s ;; for_each l2 body s').
Proof.
  revert s; induction l1 as [|a l1 IH]; intros s; simpl; [reflexivity|].
  destruct (body s a); simpl; auto.
Qed.

Lemma for_each_nested {A B S : Type} (ys : list B) (xs : list A)
  (body : B -> S -> A -> result S) s :
  for_each ys (fun st y => for_each xs (body y) st) s
  = for_each (flat_map (fun y => map (fun x => (x, y)) xs) ys)
      (fun st p => body (snd p) st (fst p)) s.
Proof.
  revert s; induction ys as [|y ys IH]; intros s; simpl; [reflexivity|].
  rewrite for_each_app.
  assert (E : forall l s0, for_each (map (fun x => (x, y)) l)
                 (fun st p => body (snd p) st (fst p)) s0
               = for_each l (body y) s0).
  { induction l as [|x l IHl]; intros s0; simpl; [reflexivity|].
    destruct (body y s0 x); simpl; auto. }
  rewrite E. destruct (for_each xs (body y) s); simpl; auto.
Qed.

Lemma reversed_range_NoDup n : NoDup (reversed_range n).
Proof.
  unfold reversed_range. apply NoDup_rev, seq_NoDup.
Qed.

Lemma in_reversed_range n x : In x (reversed_range n) <-> (x < n)%nat.
Proof.
  unfold reversed_range. rewrite <- in_rev, in_seq. lia.
Qed.

Lemma in_scan_order w h x y :
  In (x, y) (scan_order w h) <-> (x < w)%nat /\ (y < h)%nat.
Proof.
  unfold scan_order. rewrite in_flat_map. split.
  - intros (y' & Hy & Hin). apply in_map_iff in Hin.
    destruct Hin as (x' & E & Hx). inversion E; subst.
    apply in_reversed_range in Hy, Hx. auto.
  - intros [Hx Hy]. exists y. split; [now apply in_reversed_range|].
    apply in_map_iff. exists x. split; [reflexivity|now apply in_reversed_range].
Qed.

Lemma scan_order_NoDup w h : NoDup (scan_order w h).
Proof.
  unfold scan_order. generalize (reversed_range_NoDup h).
  generalize (reversed_range h) as ys.
  induction ys as [|y ys IH]; intros Hnd; simpl; [constructor|].
  inversion Hnd as [|? ? Hy Hnd']; subst.
  apply NoDup_app.
  - apply Injective_map_NoDup; [|apply reversed_range_NoDup].
    intros a b E. now inversion E.
  - auto.
  - intros p Hp Hq. apply in_map_iff in Hp. destruct Hp as (x & E & _). subst p.
    apply in_flat_map in Hq. destruct Hq as (y' & Hy' & Hq).
    apply in_map_iff in Hq. destruct Hq as (x' & E & _).
    inversion E; subst. contradiction.
Qed.

(** ** The packing loop as a scan of the original pixels *)

Section PackProofs.

Variable REAL_WORD_RGB : list rgb.
Variable DEVICE_RGB : list rgb.
Variable DEVICE_INDEX_TO_RAW : list Z.

Let step (st : pack_state) (p : nat * nat) : result pack_state :=
  pack_pixel REAL_WORD_RGB DEVICE_RGB DEVICE_INDEX_TO_RAW (snd p) st (fst p).
Let sstep := scan_step REAL_WORD_RGB DEVICE_RGB DEVICE_INDEX_TO_RAW.
Let colours (im : image) (cs : list (nat * nat)) : list (nat * rgb) :=
  map (fun p => (fst p, getpixel im (fst p) (snd p))) cs.

Lemma pack_pixel_scan st x y :
  pending_and_bytes
    (pack_pixel REAL_WORD_RGB DEVICE_RGB DEVICE_INDEX_TO_RAW y st x)
  = sstep (raw_pending st, raw_bytes st) (x, getpixel (pixels st) x y).
Proof.
  unfold sstep, scan_step, lookup, pack_pixel, emit, pending_and_bytes; simpl.
  destruct (list_index _ _) as [i|e]; simpl; [|reflexivity].
  destruct (subscript DEVICE_RGB i) as [dv|e]; simpl; [|reflexivity].
  destruct (subscript DEVICE_INDEX_TO_RAW i) as [rv|e]; simpl; [|reflexivity].
  destruct (py_assert _) as [u|e]; simpl; [|reflexivity].
  destruct (Z.land _ 1 =? 0); simpl; [reflexivity|].
  destruct (bytearray_append _ _); reflexivity.
Qed.

(** An iteration writes the pixel it visits and no other. *)
Lemma pack_pixel_frame st st' x y x' y' :
  pack_pixel REAL_WORD_RGB DEVICE_RGB DEVICE_INDEX_TO_RAW y st x = Ok st' ->
  (x', y') <> (x, y) ->
  getpixel (pixels st') x' y' = getpixel (pixels st) x' y'.
Proof.
  unfold pack_pixel. intros H Hne.
  destruct (list_index _ _) as [i|e]; simpl in H; [|discriminate].
  destruct (subscript DEVICE_RGB i) as [dv|e]; simpl in H; [|discriminate].
  destruct (subscript DEVICE_INDEX_TO_RAW i) as [rv|e]; simpl in H; [|discriminate].
  destruct (py_assert _) as [u|e]; simpl in H; [|discriminate].
  assert (E : pixels st' = putpixel (pixels st) x y dv).
  { destruct (Z.land _ 1 =? 0); [now inversion H|].
    destruct (bytearray_append _ _); simpl in H; [now inversion H|discriminate]. }
  rewrite E. unfold putpixel; simpl.
  destruct (Nat.eqb_spec x' x); destruct (Nat.eqb_spec y' y); simpl; auto.
  subst. now elim Hne.
Qed.

Lemma pack_loop_scan im cs :
  NoDup cs ->
  forall st,
    (forall p, In p cs ->
       getpixel (pixels st) (fst p) (snd p) = getpixel im (fst p) (snd p)) ->
    pending_and_bytes (for_each cs step st)
    = for_each (colours im cs) sstep (raw_pending st, raw_bytes st).
Proof.
  induction 1 as [|p cs Hnin Hnd IH]; intros st Hpx; simpl; [reflexivity|].
  rewrite <- (Hpx p (or_introl eq_refl)).
  rewrite <- pack_pixel_scan. unfold step at 1.
  destruct p as [x y]; simpl.
  destruct (pack_pixel _ _ _ y st x) as [st'|e] eqn:E; simpl; [|reflexivity].
  apply IH. intros q Hq.
  rewrite <- (Hpx q (or_intror Hq)). destruct q as [x' y']; simpl.
  apply (pack_pixel_frame _ _ _ _ _ _ E).
  intros E'. inversion E'; subst. contradiction.
Qed.

(** [raw_pending] and [raw_bytes] after the loop are those of a scan of
    the quantized image's own pixels in reverse raster order: the recolouring
    of visited pixels never reaches a pixel still to be read. *)
Lemma pack_scan im :
  pending_and_bytes (pack REAL_WORD_RGB DEVICE_RGB DEVICE_INDEX_TO_RAW im)
  = for_each (colours im (scan_order (width im) (height im))) sstep (0, []).
Proof.
  unfold pack, pack_row. rewrite for_each_nested.
  apply (pack_loop_scan im _ (scan_order_NoDup _ _)
           (mkPack im 0 [])).
  reflexivity.
Qed.

End PackProofs.

(** ** How many bytes a scan emits *)

Lemma land_1_odd (x : nat) :
  (Z.land (Z.of_nat x) 1 =? 0) = negb (Nat.odd x).
Proof.
  change 1 with (Z.ones 1). rewrite Z.land_ones by lia.
  change (2 ^ 1) with 2.
  destruct (Nat.odd x) eqn:E; simpl.
  - apply Nat.odd_spec in E. destruct E as [k ->].
    apply Z.eqb_neq. rewrite Nat2Z.inj_add, Nat2Z.inj_mul. simpl Z.of_nat.
    rewrite Z.add_comm, Z.mul_comm, Z.mod_add by lia. discriminate.
  - assert (Ev : Nat.even x = true) by (rewrite <- Nat.negb_odd, E; reflexivity).
    apply Nat.even_spec in Ev. destruct Ev as [k ->].
    apply Z.eqb_eq. rewrite Nat2Z.inj_mul. simpl Z.of_nat.
    rewrite Z.mul_comm. apply Z.mod_mul. lia.
Qed.

Lemma count_odd_seq w :
  (2 * List.length (filter Nat.odd (seq 0 w)) + (if Nat.odd w then 1 else 0) = w)%nat.
Proof.
  induction w as [|w IH]; [reflexivity|].
  rewrite seq_S, filter_app, length_app. simpl seq. simpl filter.
  rewrite Nat.odd_succ, <- Nat.negb_odd.
  destruct (Nat.odd w); simpl in *; lia.
Qed.

Lemma count_odd_reversed_range w :
  List.length (filter Nat.odd (reversed_range w)) = (w / 2)%nat.
Proof.
  unfold reversed_range.
  assert (E : forall l, List.length (filter Nat.odd (rev l))
                        = List.length (filter Nat.odd l)).
  { induction l as [|a l IH]; simpl; [reflexivity|].
    rewrite filter_app, length_app, IH. simpl.
    destruct (Nat.odd a); simpl; lia. }
  rewrite E. pose proof (count_odd_seq w) as H.
  destruct (Nat.odd w).
  - apply Nat.div_unique with (r := 1%nat); lia.
  - apply Nat.div_unique with (r := 0%nat); lia.
Qed.

Lemma count_odd_scan_order w h :
  List.length (filter (fun p : nat * nat => Nat.odd (fst p)) (scan_order w h))
  = (h * (w / 2))%nat.
Proof.
  unfold scan_order.
  pose proof (count_odd_reversed_range w) as Hrow.
  remember (w / 2)%nat as q eqn:Hq. clear Hq.
  assert (Hlen : List.length (reversed_range h) = h)
    by (unfold reversed_range; now rewrite length_rev, length_seq).
  revert Hlen. generalize (reversed_range h) as ys. intros ys; revert h.
  induction ys as [|y ys IH]; intros h Hlen.
  - simpl in Hlen. subst h. reflexivity.
  - destruct h as [|h]; [discriminate|]. injection Hlen as Hlen.
    cbn [flat_map]. rewrite filter_app, length_app, (IH h Hlen).
    assert (E : forall l, filter (fun p : nat * nat => Nat.odd (fst p))
                            (map (fun x => (x, y)) l)
                          = map (fun x => (x, y)) (filter Nat.odd l)).
    { induction l as [|a l IHl]; simpl; [reflexivity|].
      destruct (Nat.odd a); simpl; now rewrite IHl. }
    rewrite E, length_map, Hrow. lia.
Qed.

Section ScanProofs.

Variable REAL_WORD_RGB : list rgb.
Variable DEVICE_RGB : list rgb.
Variable DEVICE_INDEX_TO_RAW : list Z.

Let sstep := scan_step REAL_WORD_RGB DEVICE_RGB DEVICE_INDEX_TO_RAW.

(** Every iteration at an odd column appends one byte, the others none. *)
Lemma scan_length (l : list (nat * rgb)) :
  forall pb pb',
    for_each l sstep pb = Ok pb' ->
    List.length (snd pb')
    = (List.length (snd pb)
       + List.length (filter (fun xc : nat * rgb => Nat.odd (fst xc)) l))%nat.
Proof.
  induction l as [|[x c] l IH]; intros pb pb' H; simpl in *.
  - inversion H. lia.
  - destruct (sstep pb (x, c)) as [pb1|e] eqn:E; simpl in H; [|discriminate].
    rewrite (IH _ _ H). clear H IH.
    unfold sstep, scan_step in E; simpl in E.
    destruct (lookup _ _ _ c) as [[dv rv]|e]; simpl in E; [|discriminate].
    unfold emit in E. rewrite land_1_odd in E.
    destruct (Nat.odd x); simpl in E |- *.
    + unfold bytearray_append in E.
      destruct ((0 <=? _) && (_ <? 256)); simpl in E; [|discriminate].
      inversion E; subst; simpl. rewrite length_app; simpl. lia.
    + inversion E; subst; simpl. lia.
Qed.

(** The length of the raw buffer: one byte for each odd column of each
    row. *)
Lemma pack_length im st :
  pack REAL_WORD_RGB DEVICE_RGB DEVICE_INDEX_TO_RAW im = Ok st ->
  List.length (raw_bytes st) = (height im * (width im / 2))%nat.
Proof.
  intros H.
  pose proof (pack_scan REAL_WORD_RGB DEVICE_RGB DEVICE_INDEX_TO_RAW im) as S.
  rewrite H in S; simpl in S. symmetry in S.
  apply scan_length in S. simpl in S. rewrite S.
  rewrite <- count_odd_scan_order.
  generalize (scan_order (width im) (height im)) as cs.
  induction cs as [|p cs IH]; simpl; [reflexivity|].
  destruct (Nat.odd (fst p)); simpl; now rewrite IH.
Qed.

End ScanProofs.

(** ** When the loop succeeds and when the assertion fires *)

Lemma nibble_pair_range p r :
  0 <= p < 8 -> 0 <= r < 8 -> 0 <= Z.lor (Z.shiftl p 4) r < 128.
Proof.
  intros Hp Hr.
  assert (Ep : p = 0 \/ p = 1 \/ p = 2 \/ p = 3 \/ p = 4 \/ p = 5 \/ p = 6 \/ p = 7) by lia.
  assert (Er : r = 0 \/ r = 1 \/ r = 2 \/ r = 3 \/ r = 4 \/ r = 5 \/ r = 6 \/ r = 7) by lia.
  repeat (destruct Ep as [->|Ep]); try subst p;
    repeat (destruct Er as [->|Er]); try subst r; vm_compute; split; congruence.
Qed.

Lemma rgb_eqb_eq c1 c2 : rgb_eqb c1 c2 = true <-> c1 = c2.
Proof.
  destruct c1 as [[r1 g1] b1], c2 as [[r2 g2] b2]; simpl.
  rewrite !andb_true_iff, !Z.eqb_eq. split.
  - intros [[-> ->] ->]; reflexivity.
  - intros E; inversion E; auto.
Qed.

Lemma list_index_In c l :
  In c l -> exists i, list_index c l = Ok i /\ (i < List.length l)%nat.
Proof.
  induction l as [|a l IH]; intros H; simpl in *; [contradiction|].
  destruct (rgb_eqb a c) eqn:E.
  - exists O. split; [reflexivity|lia].
  - destruct H as [->|H].
    + assert (T : rgb_eqb c c = true) by now apply rgb_eqb_eq.
      congruence.
    + destruct (IH H) as (i & Hi & Hlt). exists (S i). rewrite Hi; simpl.
      split; [reflexivity|lia].
Qed.

Lemma list_index_nth c l i :
  list_index c l = Ok i -> nth_error l i = Some c.
Proof.
  revert i; induction l as [|a l IH]; intros i H; simpl in *; [discriminate|].
  destruct (rgb_eqb a c) eqn:E.
  - inversion H; subst. apply rgb_eqb_eq in E. now subst.
  - destruct (list_index c l) as [j|e]; simpl in H; [|discriminate].
    inversion H; subst. simpl. now apply IH.
Qed.

Lemma subscript_lt {A : Type} (l : list A) i :
  (i < List.length l)%nat -> exists a, subscript l i = Ok a /\ nth_error l i = Some a.
Proof.
  intros H. unfold subscript.
  destruct (nth_error l i) as [a|] eqn:E; [eauto|].
  apply nth_error_None in E. lia.
Qed.

Section ScanOutcome.

Variable REAL_WORD_RGB : list rgb.
Variable DEVICE_RGB : list rgb.
Variable DEVICE_INDEX_TO_RAW : list Z.

Hypothesis device_aligned :
  (List.length REAL_WORD_RGB <= List.length DEVICE_RGB)%nat.
Hypothesis raw_aligned :
  (List.length REAL_WORD_RGB <= List.length DEVICE_INDEX_TO_RAW)%nat.
Hypothesis raw_nonneg : Forall (fun v => 0 <= v) DEVICE_INDEX_TO_RAW.

Let sstep := scan_step REAL_WORD_RGB DEVICE_RGB DEVICE_INDEX_TO_RAW.
Let raw := raw_of REAL_WORD_RGB DEVICE_INDEX_TO_RAW.

(** For a palette colour the lookups succeed, and only the assertion can
    stop the iteration. *)
Lemma lookup_palette_colour c :
  In c REAL_WORD_RGB ->
  0 <= raw c /\
  exists dv,
    lookup REAL_WORD_RGB DEVICE_RGB DEVICE_INDEX_TO_RAW c
    = if raw c <? 8 then Ok (dv, raw c) else Raise AssertionError.
Proof.
  intros Hin. unfold raw, raw_of, lookup.
  destruct (list_index_In _ _ Hin) as (i & Hi & Hlt). rewrite Hi; simpl.
  destruct (subscript_lt DEVICE_RGB i) as (dv & Hdv & _); [lia|].
  destruct (subscript_lt DEVICE_INDEX_TO_RAW i) as (rv & Hrv & Hnth); [lia|].
  rewrite Hdv, Hrv; simpl.
  rewrite (nth_error_nth _ _ 0 Hnth).
  split.
  - rewrite Forall_forall in raw_nonneg. apply raw_nonneg.
    eapply nth_error_In; eauto.
  - exists dv. unfold py_assert. destruct (rv <? 8); reflexivity.
Qed.

Lemma emit_ok x r pb :
  0 <= fst pb < 8 -> 0 <= r < 8 -> Forall (fun b => 0 <= b < 128) (snd pb) ->
  exists pb',
    emit x r pb = Ok pb'
    /\ 0 <= fst pb' < 8 /\ Forall (fun b => 0 <= b < 128) (snd pb').
Proof.
  intros Hp Hr Hb. unfold emit.
  destruct (Z.land (Z.of_nat x) 1 =? 0).
  - eexists; split; [reflexivity|]. simpl; auto.
  - pose proof (nibble_pair_range (fst pb) r Hp Hr) as R.
    unfold bytearray_append.
    assert (T : ((0 <=? Z.lor (Z.shiftl (fst pb) 4) r)
                 && (Z.lor (Z.shiftl (fst pb) 4) r <? 256)) = true).
    { apply andb_true_iff. split; [apply Z.leb_le|apply Z.ltb_lt]; lia. }
    rewrite T. cbn [bind]. eexists; split; [reflexivity|]. cbn [fst snd].
    split; [lia|].
    apply Forall_app. split; [assumption|]. constructor; [lia|constructor].
Qed.

Lemma scan_ok (l : list (nat * rgb)) :
  (forall xc, In xc l -> In (snd xc) REAL_WORD_RGB /\ raw (snd xc) < 8) ->
  forall pb,
    0 <= fst pb < 8 -> Forall (fun b => 0 <= b < 128) (snd pb) ->
    exists pb',
      for_each l sstep pb = Ok pb'
      /\ 0 <= fst pb' < 8 /\ Forall (fun b => 0 <= b < 128) (snd pb').
Proof.
  induction l as [|[x c] l IH]; intros Hl pb Hp Hb; simpl.
  - eauto.
  - destruct (Hl (x, c) (or_introl eq_refl)) as [Hin Hlt]; simpl in *.
    destruct (lookup_palette_colour c Hin) as (Hge & dv & Hlk).
    assert (T : (raw c <? 8) = true) by (apply Z.ltb_lt; exact Hlt).
    rewrite T in Hlk.
    unfold sstep at 1, scan_step; simpl. rewrite Hlk; simpl.
    destruct (emit_ok x (raw c) pb Hp (conj Hge Hlt) Hb) as (pb1 & E & Hp1 & Hb1).
    rewrite E; simpl. apply IH; auto.
Qed.

Lemma scan_assert (l : list (nat * rgb)) :
  (forall xc, In xc l -> In (snd xc) REAL_WORD_RGB) ->
  (exists xc, In xc l /\ 8 <= raw (snd xc)) ->
  forall pb,
    0 <= fst pb < 8 -> Forall (fun b => 0 <= b < 128) (snd pb) ->
    for_each l sstep pb = Raise AssertionError.
Proof.
  induction l as [|[x c] l IH]; intros Hl (bad & Hbad & Hge) pb Hp Hb; simpl.
  - contradiction.
  - destruct (lookup_palette_colour c (Hl (x, c) (or_introl eq_refl)))
      as (Hc & dv & Hlk); simpl in *.
    unfold sstep at 1, scan_step; simpl. rewrite Hlk.
    destruct (raw c <? 8) eqn:T; simpl; [|reflexivity].
    apply Z.ltb_lt in T.
    destruct Hbad as [<-|Hbad]; [simpl in Hge; lia|].
    destruct (emit_ok x (raw c) pb Hp (conj Hc T) Hb) as (pb1 & E & Hp1 & Hb1).
    rewrite E; simpl. apply IH; auto. exists bad; auto.
Qed.

(** The outcome of [pack] on an image of palette colours. *)
Lemma pack_outcome im :
  (forall x y, (x < width im)%nat -> (y < height im)%nat ->
               In (getpixel im x y) REAL_WORD_RGB) ->
  ((exists x y, (x < width im)%nat /\ (y < height im)%nat
                /\ 8 <= raw (getpixel im x y)) ->
   pack REAL_WORD_RGB DEVICE_RGB DEVICE_INDEX_TO_RAW im = Raise AssertionError)
  /\
  ((forall x y, (x < width im)%nat -> (y < height im)%nat ->
                raw (getpixel im x y) < 8) ->
   exists st,
     pack REAL_WORD_RGB DEVICE_RGB DEVICE_INDEX_TO_RAW im = Ok st
     /\ Forall (fun b => 0 <= b < 128) (raw_bytes st)).
Proof.
  intros Hpal.
  pose proof (pack_scan REAL_WORD_RGB DEVICE_RGB DEVICE_INDEX_TO_RAW im) as S.
  set (l := map (fun p : nat * nat => (fst p, getpixel im (fst p) (snd p)))
              (scan_order (width im) (height im))) in *.
  assert (Hl : forall xc, In xc l -> In (snd xc) REAL_WORD_RGB).
  { intros xc Hxc. apply in_map_iff in Hxc. destruct Hxc as ([x y] & <- & Hin).
    apply in_scan_order in Hin. simpl. now apply Hpal. }
  split.
  - intros (x & y & Hx & Hy & Hge).
    rewrite (scan_assert l Hl) in S.
    + destruct (pack _ _ _ im) as [st|e]; simpl in S; congruence.
    + exists (x, getpixel im x y). split; [|exact Hge].
      apply in_map_iff. exists (x, y). split; [reflexivity|].
      now apply in_scan_order.
    + simpl; lia.
    + constructor.
  - intros Hlt.
    destruct (scan_ok l) with (pb := (0, @nil Z)) as (pb' & E & _ & Hb).
    + intros xc Hxc. split; [now apply Hl|].
      apply in_map_iff in Hxc. destruct Hxc as ([x y] & <- & Hin).
      apply in_scan_order in Hin. simpl. now apply Hlt.
    + simpl; lia.
    + constructor.
    + fold sstep in S. rewrite E in S.
      destruct (pack _ _ _ im) as [st|e]; simpl in S; [|discriminate].
      exists st. split; [reflexivity|]. inversion S; subst. exact Hb.
Qed.

End ScanOutcome.

(** ** The bytes of a 2x2 image *)

(** C1 (the code departs from the claim).  On every 2x2 image
    [[a, b], [c, d]] of palette colours the loop emits two bytes: the raw
    value of [d] alone, in the low nibble under the initial [raw_pending = 0],
    and then the pair [c], [b]; the raw value of [a] is left in
    [raw_pending] and never emitted.  The claim's bytes are (d, c) and
    (b, a). *)
Theorem pack_2x2_bytes REAL_WORD_RGB DEVICE_RGB DEVICE_INDEX_TO_RAW a b c d :
  (List.length REAL_WORD_RGB <= List.length DEVICE_RGB)%nat ->
  (List.length REAL_WORD_RGB <= List.length DEVICE_INDEX_TO_RAW)%nat ->
  Forall (fun v => 0 <= v) DEVICE_INDEX_TO_RAW ->
  Forall (fun p => In p REAL_WORD_RGB
                   /\ raw_of REAL_WORD_RGB DEVICE_INDEX_TO_RAW p < 8) [a; b; c; d] ->
  pending_and_bytes
    (pack REAL_WORD_RGB DEVICE_RGB DEVICE_INDEX_TO_RAW (of_rows 2 [[a; b]; [c; d]]))
  = Ok (raw_of REAL_WORD_RGB DEVICE_INDEX_TO_RAW a,
        [ raw_of REAL_WORD_RGB DEVICE_INDEX_TO_RAW d;
          Z.lor (Z.shiftl (raw_of REAL_WORD_RGB DEVICE_INDEX_TO_RAW c) 4)
                (raw_of REAL_WORD_RGB DEVICE_INDEX_TO_RAW b) ]).
Proof.
  intros Hd Hr Hn Hpx.
  rewrite !Forall_cons_iff in Hpx.
  destruct Hpx as ([Ha La] & [Hb Lb] & [Hc Lc] & [Hdd Ld] & _).
  rewrite pack_scan. cbn -[lookup raw_of Z.lor Z.shiftl Z.land].
  unfold scan_step. cbn [fst snd].
  generalize (lookup_palette_colour _ _ _ Hd Hr Hn).
  intros L.
  destruct (L a Ha) as (Ga & va & ->), (L b Hb) as (Gb & vb & ->),
           (L c Hc) as (Gc & vc & ->), (L d Hdd) as (Gd & vd & ->).
  apply Z.ltb_lt in La, Lb, Lc, Ld.
  rewrite La, Lb, Lc, Ld. cbn -[raw_of Z.lor Z.shiftl].
  set (ra := raw_of _ _ a). set (rb := raw_of _ _ b).
  set (rc := raw_of _ _ c). set (rd := raw_of _ _ d).
  fold ra rb rc rd in Ga, Gb, Gc, Gd, La, Lb, Lc, Ld.
  apply Z.ltb_lt in La, Lb, Lc, Ld.
  unfold emit; cbn -[Z.lor Z.shiftl].
  unfold bytearray_append.
  rewrite Z.shiftl_0_l, Z.lor_0_l.
  pose proof (nibble_pair_range rc rb (conj Gc Lc) (conj Gb Lb)) as R.
  assert (T1 : ((0 <=? rd) && (rd <? 256)) = true).
  { apply andb_true_iff. split; [apply Z.leb_le|apply Z.ltb_lt]; lia. }
  assert (T2 : ((0 <=? Z.lor (Z.shiftl rc 4) rb)
                && (Z.lor (Z.shiftl rc 4) rb <? 256)) = true).
  { apply andb_true_iff. split; [apply Z.leb_le|apply Z.ltb_lt]; lia. }
  rewrite T1. cbn -[Z.lor Z.shiftl]. rewrite T2. reflexivity.
Qed.

Lemma pack_2x2_bytes_witness :
  pending_and_bytes
    (pack_spectra6
       (of_rows 2 [ [(25, 30, 33); (232, 232, 232)];
                    [(239, 222, 68); (178, 19, 24)] ]))
  = Ok (0, [3; 33]).
Proof.
  apply (pack_2x2_bytes SPECTRA6_REAL_WORD_RGB SPECTRA6_DEVICE_RGB
           SPECTRA6_DEVICE_INDEX_TO_RAW
           (25, 30, 33) (232, 232, 232) (239, 222, 68) (178, 19, 24)).
  - simpl; lia.
  - simpl; lia.
  - repeat constructor; lia.
  - repeat constructor; simpl; tauto.
Defined.

(** The bytes the claim expects for the same image, 0x32 and 0x10, against
    the bytes emitted, 0x03 and 0x21. *)
Example pack_2x2_expected_bytes :
  [Z.lor (Z.shiftl 3 4) 2; Z.lor (Z.shiftl 1 4) 0] = [50; 16]
  /\ bytes_of (pack_spectra6
                 (of_rows 2 [ [(25, 30, 33); (232, 232, 232)];
                              [(239, 222, 68); (178, 19, 24)] ]))
     = Ok [3; 33].
Proof.
  split; vm_compute; reflexivity.
Qed.

(** C3 (the code departs from the claim).  Whenever the loop returns, the
    raw buffer holds one byte for each odd column of each row, that is
    [height * (width // 2)] bytes: for an odd width this is less than
    ceil(width * height / 2), also when the pixel count is even. *)
Theorem pack_length_odd_columns REAL_WORD_RGB DEVICE_RGB DEVICE_INDEX_TO_RAW im st :
  pack REAL_WORD_RGB DEVICE_RGB DEVICE_INDEX_TO_RAW im = Ok st ->
  List.length (raw_bytes st) = (height im * (width im / 2))%nat.
Proof.
  apply pack_length.
Qed.

Lemma pack_length_odd_columns_witness :
  exists st,
    pack_spectra6
      (of_rows 3 [ [(25, 30, 33); (232, 232, 232); (239, 222, 68)];
                   [(178, 19, 24); (33, 87, 186); (18, 95, 32)] ]) = Ok st
    /\ List.length (raw_bytes st) = 2%nat
    /\ ((3 * 2 + 1) / 2 = 3)%nat.
Proof.
  destruct (pack_spectra6
              (of_rows 3 [ [(25, 30, 33); (232, 232, 232); (239, 222, 68)];
                           [(178, 19, 24); (33, 87, 186); (18, 95, 32)] ]))
    as [st|e] eqn:E.
  - exists st. split; [reflexivity|]. split; [|reflexivity].
    apply (pack_length_odd_columns _ _ _ _ _ E).
  - vm_compute in E. discriminate E.
Defined.

(** ** The assertion of the packing loop *)

(** C8 (counterexample).  A map holding the value 16 at an index no pixel
    uses: [pack] returns the byte 0x00 for two pixels of palette index 0. *)
Lemma pack_unused_16_accepted :
  In 16 [0; 1; 2; 3; 5; 16]
  /\ bytes_of (pack SPECTRA6_REAL_WORD_RGB SPECTRA6_DEVICE_RGB [0; 1; 2; 3; 5; 16]
                 (of_rows 2 [ [(25, 30, 33); (25, 30, 33)] ]))
     = Ok [0].
Proof.
  split; [simpl; tauto|vm_compute; reflexivity].
Qed.

(** C8 (amended).  For tables aligned with the palette and an image of
    palette colours: if some pixel's raw value is 8 or more (so also when it
    is 16 or more) [pack] fails with the assertion error and returns no
    byte; if every pixel's raw value is below 8 it succeeds, each byte
    below 128.  No other error occurs. *)
Theorem pack_assertion_guard REAL_WORD_RGB DEVICE_RGB DEVICE_INDEX_TO_RAW im :
  (List.length REAL_WORD_RGB <= List.length DEVICE_RGB)%nat ->
  (List.length REAL_WORD_RGB <= List.length DEVICE_INDEX_TO_RAW)%nat ->
  Forall (fun v => 0 <= v) DEVICE_INDEX_TO_RAW ->
  (forall x y, (x < width im)%nat -> (y < height im)%nat ->
               In (getpixel im x y) REAL_WORD_RGB) ->
  ((exists x y, (x < width im)%nat /\ (y < height im)%nat
                /\ 8 <= raw_of REAL_WORD_RGB DEVICE_INDEX_TO_RAW (getpixel im x y)) ->
   pack REAL_WORD_RGB DEVICE_RGB DEVICE_INDEX_TO_RAW im = Raise AssertionError)
  /\
  ((forall x y, (x < width im)%nat -> (y < height im)%nat ->
                raw_of REAL_WORD_RGB DEVICE_INDEX_TO_RAW (getpixel im x y) < 8) ->
   exists st,
     pack REAL_WORD_RGB DEVICE_RGB DEVICE_INDEX_TO_RAW im = Ok st
     /\ Forall (fun b => 0 <= b < 128) (raw_bytes st)).
Proof.
  intros Hd Hr Hn Hpal. now apply pack_outcome.
Qed.

Lemma pack_assertion_guard_witness :
  pack SPECTRA6_REAL_WORD_RGB SPECTRA6_DEVICE_RGB [0; 1; 2; 3; 5; 16]
    (of_rows 2 [ [(25, 30, 33); (18, 95, 32)] ])
  = Raise AssertionError.
Proof.
  apply (pack_assertion_guard SPECTRA6_REAL_WORD_RGB SPECTRA6_DEVICE_RGB
           [0; 1; 2; 3; 5; 16] (of_rows 2 [ [(25, 30, 33); (18, 95, 32)] ])).
  - simpl; lia.
  - simpl; lia.
  - repeat constructor; lia.
  - intros x y Hx Hy. simpl in Hx, Hy.
    destruct y as [|y]; [|lia].
    destruct x as [|[|x]]; [| |lia]; simpl; tauto.
  - exists 1%nat, 0%nat.
    split; [simpl; lia|]. split; [simpl; lia|].
    apply Z.leb_le. vm_compute. reflexivity.
Defined.

(** C9.  With the script's own tables the assertion never fails: on every
    image of SPECTRA6 palette colours the loop runs to its end, and each
    pixel's lookups give a raw value among 0, 1, 2, 3, 5, 6. *)
Theorem spectra6_assertion_never_fails im :
  (forall x y, (x < width im)%nat -> (y < height im)%nat ->
               In (getpixel im x y) SPECTRA6_REAL_WORD_RGB) ->
  (exists st, pack_spectra6 im = Ok st)
  /\ forall x y, (x < width im)%nat -> (y < height im)%nat ->
       exists index raw_value,
         list_index (getpixel im x y) SPECTRA6_REAL_WORD_RGB = Ok index
         /\ subscript SPECTRA6_DEVICE_INDEX_TO_RAW index = Ok raw_value
         /\ In raw_value [0; 1; 2; 3; 5; 6]
         /\ py_assert (raw_value <? 8) = Ok tt.
Proof.
  intros Hpal.
  assert (Hcol : forall c, In c SPECTRA6_REAL_WORD_RGB ->
            exists index raw_value,
              list_index c SPECTRA6_REAL_WORD_RGB = Ok index
              /\ subscript SPECTRA6_DEVICE_INDEX_TO_RAW index = Ok raw_value
              /\ In raw_value [0; 1; 2; 3; 5; 6]
              /\ py_assert (raw_value <? 8) = Ok tt
              /\ raw_of SPECTRA6_REAL_WORD_RGB SPECTRA6_DEVICE_INDEX_TO_RAW c < 8).
  { intros c Hc. simpl in Hc.
    repeat (destruct Hc as [<-|Hc]); [..|contradiction];
      eexists; eexists; (split; [vm_compute; reflexivity|]);
      (split; [vm_compute; reflexivity|]);
      (split; [simpl; tauto|]); (split; [reflexivity|]); vm_compute; reflexivity. }
  split.
  - destruct (pack_outcome SPECTRA6_REAL_WORD_RGB SPECTRA6_DEVICE_RGB
                SPECTRA6_DEVICE_INDEX_TO_RAW) with (im := im) as [_ Hok].
    + simpl; lia.
    + simpl; lia.
    + repeat constructor; lia.
    + exact Hpal.
    + destruct Hok as (st & E & _).
      * intros x y Hx Hy. destruct (Hcol _ (Hpal x y Hx Hy)) as (? & ? & ? & ? & ? & ? & L).
        exact L.
      * exists st. exact E.
  - intros x y Hx Hy.
    destruct (Hcol _ (Hpal x y Hx Hy)) as (i & rv & H1 & H2 & H3 & H4 & _).
    exists i, rv. auto.
Qed.

Lemma spectra6_assertion_never_fails_witness :
  exists st,
    pack_spectra6 (of_rows 2 [ [(25, 30, 33); (18, 95, 32)];
                               [(33, 87, 186); (232, 232, 232)] ]) = Ok st.
Proof.
  apply (spectra6_assertion_never_fails
           (of_rows 2 [ [(25, 30, 33); (18, 95, 32)];
                        [(33, 87, 186); (232, 232, 232)] ])).
  intros x y Hx Hy. simpl in Hx, Hy.
  destruct y as [|[|y]]; [| |lia];
    (destruct x as [|[|x]]; [| |lia]); simpl; tauto.
Defined.

(** ** The palette table *)

Lemma flatten_colors_length l :
  List.length (flatten_colors l) = (3 * List.length l)%nat.
Proof.
  induction l as [|[[r g] b] l IH]; [reflexivity|].
  change (flatten_colors ((r, g, b) :: l)) with (r :: g :: b :: flatten_colors l).
  simpl List.length. lia.
Qed.

Lemma palette_colors_flatten l : palette_colors (flatten_colors l) = l.
Proof.
  induction l as [|[[r g] b] l IH]; [reflexivity|].
  change (flatten_colors ((r, g, b) :: l)) with (r :: g :: b :: flatten_colors l).
  simpl. now rewrite IH.
Qed.

Lemma build_palette_table_short colors first rest :
  colors = first :: rest ->
  (List.length colors < max_colors)%nat ->
  build_palette_table colors
  = Ok (flatten_colors (colors ++ repeat first (max_colors - List.length colors))).
Proof.
  intros -> Hlt. unfold build_palette_table.
  assert (E1 : (max_colors <? List.length (first :: rest))%nat = false)
    by (apply Nat.ltb_ge; lia).
  assert (E2 : (List.length (first :: rest) <? max_colors)%nat = true)
    by (apply Nat.ltb_lt; lia).
  rewrite E1, E2. cbn [subscript nth_error bind].
  set (padded := (first :: rest) ++ repeat first (max_colors - List.length (first :: rest))).
  assert (L : List.length (flatten_colors padded) = 768%nat).
  { rewrite flatten_colors_length. unfold padded.
    rewrite length_app, repeat_length. unfold max_colors in *. lia. }
  rewrite L. reflexivity.
Qed.

Lemma build_palette_table_long colors :
  (max_colors <= List.length colors)%nat ->
  build_palette_table colors = Ok (flatten_colors (firstn max_colors colors)).
Proof.
  intros Hge. unfold build_palette_table.
  assert (L : List.length (firstn max_colors colors) = max_colors)
    by (apply firstn_length_le; exact Hge).
  destruct (max_colors <? List.length colors)%nat eqn:E1.
  - rewrite L, Nat.ltb_irrefl. cbn [bind].
    rewrite flatten_colors_length, L. reflexivity.
  - apply Nat.ltb_ge in E1.
    assert (E : List.length colors = max_colors) by lia.
    rewrite firstn_all2 by lia.
    assert (E2 : (List.length colors <? max_colors)%nat = false)
      by (apply Nat.ltb_ge; lia).
    rewrite E2. cbn [bind]. rewrite flatten_colors_length, E. reflexivity.
Qed.

(** ** The nearest-colour search *)

Lemma dist2_nonneg c p : 0 <= dist2 c p.
Proof.
  destruct c as [[r g] b], p as [[pr pg] pb]; unfold dist2.
  pose proof (Z.square_nonneg (r - pr)). pose proof (Z.square_nonneg (g - pg)).
  pose proof (Z.square_nonneg (b - pb)). lia.
Qed.

Lemma dist2_zero c p : dist2 c p = 0 <-> c = p.
Proof.
  destruct c as [[r g] b], p as [[pr pg] pb]; unfold dist2. split.
  - intros H.
    pose proof (Z.square_nonneg (r - pr)) as Hr.
    pose proof (Z.square_nonneg (g - pg)) as Hg.
    pose proof (Z.square_nonneg (b - pb)) as Hb.
    assert (Er : (r - pr) * (r - pr) = 0) by lia.
    assert (Eg : (g - pg) * (g - pg) = 0) by lia.
    assert (Eb : (b - pb) * (b - pb) = 0) by lia.
    apply Z.mul_eq_0 in Er, Eg, Eb.
    f_equal; [f_equal|]; lia.
  - intros E; inversion E; subst. lia.
Qed.

(** The search result is the running best or a later position. *)
Lemma nearest_from_range c t :
  forall best bd i,
    nearest_from c best bd i t = best
    \/ (i <= nearest_from c best bd i t < i + List.length t)%nat.
Proof.
  induction t as [|p t IH]; intros best bd i; simpl; [now left|].
  destruct (dist2 c p <? bd).
  - destruct (IH i (dist2 c p) (S i)) as [->|H]; right; lia.
  - destruct (IH best bd (S i)) as [->|H]; [now left|right; lia].
Qed.

Lemma nearest_index_lt table c :
  table <> [] -> (nearest_index table c < List.length table)%nat.
Proof.
  destruct table as [|p t]; [congruence|]. intros _. simpl.
  destruct (nearest_from_range c t O (dist2 c p) 1) as [->|H]; lia.
Qed.

(** Entries no nearer than the running best never replace it. *)
Lemma nearest_from_repeat c p n :
  forall best bd i, bd <= dist2 c p ->
    nearest_from c best bd i (repeat p n) = best.
Proof.
  induction n as [|n IH]; intros best bd i H; simpl; [reflexivity|].
  assert (E : (dist2 c p <? bd) = false) by (apply Z.ltb_ge; exact H).
  rewrite E. now apply IH.
Qed.

Lemma nearest_from_padding c p n t :
  forall best bd i, bd <= dist2 c p ->
    nearest_from c best bd i (t ++ repeat p n) = nearest_from c best bd i t.
Proof.
  induction t as [|q t IH]; intros best bd i H; simpl.
  - now apply nearest_from_repeat.
  - destruct (dist2 c q <? bd) eqn:E; apply IH; [|exact H].
    apply Z.ltb_lt in E. lia.
Qed.

(** Padding with copies of the first entry does not change the entry
    selected: a copy is never nearer than entry 0, which has the lower
    index. *)
Lemma nearest_index_padding first rest n c :
  nearest_index ((first :: rest) ++ repeat first n) c
  = nearest_index (first :: rest) c.
Proof.
  simpl. apply nearest_from_padding. lia.
Qed.

Lemma nearest_from_stable c t :
  forall best i, nearest_from c best 0 i t = best.
Proof.
  induction t as [|p t IH]; intros best i; simpl; [reflexivity|].
  assert (E : (dist2 c p <? 0) = false)
    by (apply Z.ltb_ge; apply dist2_nonneg).
  rewrite E. apply IH.
Qed.

Lemma nearest_from_exact c t :
  forall best bd i j,
    0 < bd -> list_index c t = Ok j ->
    nearest_from c best bd i t = (i + j)%nat.
Proof.
  induction t as [|q t IH]; intros best bd i j Hbd Hj; simpl in *; [discriminate|].
  destruct (rgb_eqb q c) eqn:E.
  - apply rgb_eqb_eq in E. subst q. inversion Hj; subst j.
    assert (Z0 : dist2 c c = 0) by now apply dist2_zero.
    rewrite Z0. assert (T : (0 <? bd) = true) by now apply Z.ltb_lt.
    rewrite T, nearest_from_stable. lia.
  - destruct (list_index c t) as [j'|e] eqn:Ej; simpl in Hj; [|discriminate].
    inversion Hj; subst j.
    assert (Hq : 0 < dist2 c q).
    { destruct (Z.eq_dec (dist2 c q) 0) as [Z0|NZ].
      - apply dist2_zero in Z0. subst q.
        assert (rgb_eqb c c = true) by now apply rgb_eqb_eq. congruence.
      - pose proof (dist2_nonneg c q). lia. }
    destruct (dist2 c q <? bd);
      rewrite (IH _ _ (S i) j') by (auto; lia); lia.
Qed.

(** A colour of the table is mapped to its own first position. *)
Lemma nearest_index_own table c j :
  list_index c table = Ok j -> nearest_index table c = j.
Proof.
  destruct table as [|p t]; simpl; [discriminate|].
  destruct (rgb_eqb p c) eqn:E.
  - intros H; inversion H; subst. apply rgb_eqb_eq in E. subst p.
    assert (Z0 : dist2 c c = 0) by now apply dist2_zero.
    rewrite Z0. apply nearest_from_stable.
  - destruct (list_index c t) as [j'|e] eqn:Ej; simpl; [|discriminate].
    intros H; inversion H; subst.
    assert (Hp : 0 < dist2 c p).
    { destruct (Z.eq_dec (dist2 c p) 0) as [Z0|NZ].
      - apply dist2_zero in Z0. subst p.
        assert (rgb_eqb c c = true) by now apply rgb_eqb_eq. congruence.
      - pose proof (dist2_nonneg c p). lia. }
    now rewrite (nearest_from_exact c t O _ 1%nat j' Hp Ej).
Qed.

Lemma list_index_app_l c l1 l2 i :
  list_index c l1 = Ok i -> list_index c (l1 ++ l2) = Ok i.
Proof.
  revert i; induction l1 as [|a l1 IH]; intros i H; simpl in *; [discriminate|].
  destruct (rgb_eqb a c); [exact H|].
  destruct (list_index c l1) as [j|e]; simpl in H; [|discriminate].
  now rewrite (IH j eq_refl).
Qed.

Lemma build_palette_table_kept colors :
  colors <> [] ->
  exists pad,
    build_palette_table colors
    = Ok (flatten_colors (firstn max_colors colors ++ pad))
    /\ (forall c, In c pad -> nth_error colors 0 = Some c).
Proof.
  intros Hne. destruct (Nat.lt_ge_cases (List.length colors) max_colors) as [Hlt|Hge].
  - destruct colors as [|first rest]; [congruence|].
    exists (repeat first (max_colors - List.length (first :: rest))).
    rewrite firstn_all2 by lia. split.
    + apply (build_palette_table_short _ first rest eq_refl Hlt).
    + intros c Hc. apply repeat_spec in Hc. now subst.
  - exists []. rewrite app_nil_r. split.
    + now apply build_palette_table_long.
    + intros c [].
Qed.

(** C4.  A non-empty palette of fewer than 256 colours is padded to 256 with
    copies of its first colour, one of more than 256 is cut to its first
    256, the table always has 768 values, and on a palette of at most 256
    colours the nearest-colour search selects the same entry in the padded
    table as in the palette itself, always a real entry.  The fixed script
    builds the same table for its six colours. *)
Theorem palette_padding_repeats_first colors c :
  colors <> [] ->
  ((List.length colors < 256)%nat ->
   build_palette_table colors
   = Ok (flatten_colors
           (colors ++ repeat (hd (0, 0, 0) colors) (256 - List.length colors))))
  /\ ((256 < List.length colors)%nat ->
      build_palette_table colors = Ok (flatten_colors (firstn 256 colors)))
  /\ (exists table,
        build_palette_table colors = Ok table
        /\ List.length table = 768%nat
        /\ ((List.length colors <= 256)%nat ->
            nearest_index (palette_colors table) c = nearest_index colors c
            /\ (nearest_index (palette_colors table) c < List.length colors)%nat))
  /\ spectra6_palette_of SPECTRA6_REAL_WORD_RGB
     = build_palette_table SPECTRA6_REAL_WORD_RGB.
Proof.
  intros Hne. destruct colors as [|first rest]; [congruence|].
  split; [|split; [|split]].
  - intros Hlt. apply (build_palette_table_short _ first rest eq_refl Hlt).
  - intros Hgt. apply build_palette_table_long. unfold max_colors. lia.
  - destruct (Nat.lt_ge_cases (List.length (first :: rest)) 256) as [Hlt|Hge].
    + eexists. split; [apply (build_palette_table_short _ first rest eq_refl Hlt)|].
      split.
      * rewrite flatten_colors_length, length_app, repeat_length.
        unfold max_colors. lia.
      * intros _. rewrite palette_colors_flatten, nearest_index_padding.
        split; [reflexivity|]. apply nearest_index_lt. discriminate.
    + eexists. split; [apply build_palette_table_long; exact Hge|].
      split.
      * rewrite flatten_colors_length, firstn_length_le by exact Hge.
        reflexivity.
      * intros Hle. rewrite palette_colors_flatten.
        rewrite firstn_all2 by (unfold max_colors; lia).
        split; [reflexivity|]. apply nearest_index_lt. discriminate.
  - vm_compute. reflexivity.
Qed.

Lemma palette_padding_repeats_first_witness :
  build_palette_table [(0, 0, 0); (255, 255, 255)]
  = Ok (flatten_colors ([(0, 0, 0); (255, 255, 255)] ++ repeat (0, 0, 0) 254)).
Proof.
  apply (palette_padding_repeats_first [(0, 0, 0); (255, 255, 255)] (90, 90, 90)).
  - discriminate.
  - simpl; lia.
Defined.

(** ** Quantization of palette colours *)

(** C7 (counterexample).  The last colour of a palette of 257 entries is
    dropped by the table; a pixel of that colour is mapped to entry 0 and
    comes back black. *)
Lemma truncated_colour_not_reproduced :
  In (0, 1, 0) palette_257
  /\ (out <- dither_none palette_257 (of_rows 1 [ [(0, 1, 0)] ]) ;;
      Ok (getpixel (of_rows 1 [ [(0, 1, 0)] ]) 0 0, getpixel out 0 0))
     = Ok ((0, 1, 0), (0, 0, 0)).
Proof.
  split.
  - unfold palette_257. apply in_or_app. right. left. reflexivity.
  - vm_compute. reflexivity.
Qed.

(** C7 (amended).  Without dithering, an image whose every pixel colour is
    among the first 256 entries of the supplied palette is reproduced
    exactly: each pixel is mapped to the first index of its own colour, and
    the rebuilt RGB image has the same size and the same pixels. *)
Theorem no_dither_reproduces_kept_colours colors img :
  colors <> [] ->
  (forall x y, (x < width img)%nat -> (y < height img)%nat ->
               In (getpixel img x y) (firstn 256 colors)) ->
  exists table out,
    build_palette_table colors = Ok table
    /\ dither_none colors img = Ok out
    /\ width out = width img /\ height out = height img
    /\ forall x y, (x < width img)%nat -> (y < height img)%nat ->
         list_index (getpixel img x y) colors
         = Ok (quantize_grid (palette_colors table) img x y)
         /\ getpixel out x y = getpixel img x y.
Proof.
  intros Hne Hpx.
  destruct (build_palette_table_kept colors Hne) as (pad & Hb & _).
  unfold dither_none. rewrite Hb. cbn [bind].
  eexists; eexists. split; [reflexivity|]. split; [reflexivity|].
  split; [reflexivity|]. split; [reflexivity|].
  intros x y Hx Hy. rewrite palette_colors_flatten.
  unfold quantize_no_dither, quantize_grid; cbn [getpixel].
  destruct (list_index_In _ _ (Hpx x y Hx Hy)) as (j & Hj & _).
  pose proof (list_index_app_l _ _ pad _ Hj) as Hj1.
  pose proof (list_index_app_l _ _ (skipn 256 colors) _ Hj) as Hj2.
  rewrite firstn_skipn in Hj2.
  change max_colors with 256%nat.
  rewrite (nearest_index_own _ _ _ Hj1). split; [exact Hj2|].
  apply nth_error_nth. now apply list_index_nth.
Qed.

Lemma no_dither_reproduces_kept_colours_witness :
  exists table out,
    build_palette_table [(0, 0, 0); (255, 255, 255)] = Ok table
    /\ dither_none [(0, 0, 0); (255, 255, 255)]
         (of_rows 2 [ [(255, 255, 255); (0, 0, 0)] ]) = Ok out
    /\ width out = 2%nat /\ height out = 1%nat
    /\ forall x y, (x < 2)%nat -> (y < 1)%nat ->
         list_index (getpixel (of_rows 2 [ [(255, 255, 255); (0, 0, 0)] ]) x y)
           [(0, 0, 0); (255, 255, 255)]
         = Ok (quantize_grid (palette_colors table)
                 (of_rows 2 [ [(255, 255, 255); (0, 0, 0)] ]) x y)
         /\ getpixel out x y
            = getpixel (of_rows 2 [ [(255, 255, 255); (0, 0, 0)] ]) x y.
Proof.
  apply (no_dither_reproduces_kept_colours [(0, 0, 0); (255, 255, 255)]
           (of_rows 2 [ [(255, 255, 255); (0, 0, 0)] ])).
  - discriminate.
  - intros x y Hx Hy. simpl in Hx, Hy.
    destruct y as [|y]; [|lia].
    destruct x as [|[|x]]; [| |lia]; simpl; tauto.
Defined.

(** ** Strings *)

Lemma lstrip_blank s :
  Forall (fun c => isspace c = true) s -> lstrip_by isspace s = [].
Proof.
  induction 1 as [|c t Hc _ IH]; simpl; [reflexivity|]. now rewrite Hc.
Qed.

Lemma strip_blank s : Forall (fun c => isspace c = true) s -> strip s = [].
Proof.
  intros H. unfold strip. now rewrite lstrip_blank.
Qed.

Lemma split_nonempty sep s : split sep s <> [].
Proof.
  destruct s as [|c t]; simpl; [discriminate|].
  destruct (Ascii.eqb c sep); [discriminate|].
  destruct (split sep t); discriminate.
Qed.

Lemma split_app sep s1 s2 :
  split sep (s1 ++ sep :: s2) = split sep s1 ++ split sep s2.
Proof.
  induction s1 as [|c t IH]; simpl.
  - now rewrite Ascii.eqb_refl.
  - destruct (Ascii.eqb c sep); [now rewrite IH|].
    rewrite IH. pose proof (split_nonempty sep t) as N.
    destruct (split sep t) as [|h r]; [congruence|reflexivity].
Qed.

Lemma split_no_sep sep s :
  Forall (fun c => Ascii.eqb c sep = false) s -> split sep s = [s].
Proof.
  induction 1 as [|c t Hc _ IH]; simpl; [reflexivity|].
  now rewrite Hc, IH.
Qed.

(** ** [parse_palette] against the specification's reading *)

Lemma entries_stripped l :
  map strip (filter (fun e => negb (Nat.eqb (List.length (strip e)) 0)) l)
  = filter (fun e => negb (Nat.eqb (List.length e) 0)) (map strip l).
Proof.
  induction l as [|e l IH]; simpl; [reflexivity|].
  destruct (negb (Nat.eqb (List.length (strip e)) 0)); simpl; now rewrite IH.
Qed.

Lemma range_check r g b :
  for_each [r; g; b]
    (fun (_ : unit) c => if (c <? 0) || (255 <? c) then Raise ValueError else Ok tt) tt
  = match in_byte_range (Ok r), in_byte_range (Ok g), in_byte_range (Ok b) with
    | Some _, Some _, Some _ => Ok tt
    | _, _, _ => Raise ValueError
    end.
Proof.
  assert (E : forall c, ((c <? 0) || (255 <? c)) = negb ((0 <=? c) && (c <=? 255))).
  { intros c. destruct (Z.ltb_spec c 0), (Z.ltb_spec 255 c),
      (Z.leb_spec 0 c), (Z.leb_spec c 255); simpl; try reflexivity; lia. }
  simpl. rewrite !E.
  destruct ((0 <=? r) && (r <=? 255)); simpl; [|reflexivity].
  destruct ((0 <=? g) && (g <=? 255)); simpl; [|reflexivity].
  destruct ((0 <=? b) && (b <=? 255)); reflexivity.
Qed.

Lemma py_int_raises s e : py_int s = Raise e -> e = ValueError.
Proof.
  unfold py_int.
  generalize (rstrip_by isspace_int (lstrip_by isspace_int s)). intros s'.
  destruct (match s' with
            | [] => (1, s')
            | c :: t =>
                if Ascii.eqb c "+"%char then (1, t)
                else if Ascii.eqb c "-"%char then (-1, t) else (1, s')
            end) as [sign body].
  destruct body as [|c t]; [congruence|].
  destruct (digit_of c); [|congruence].
  destruct (parse_digits 0 false (c :: t)); congruence.
Qed.

(** One iteration of the loop accepts exactly the valid entries. *)
Lemma parse_entry_color colors entry :
  parse_entry colors entry
  = match entry_color entry with
    | Some c => Ok (colors ++ [c])
    | None => Raise ValueError
    end.
Proof.
  unfold parse_entry, entry_color.
  destruct (split ","%char entry) as [|p0 [|p1 [|p2 [|p3 l]]]]; try reflexivity.
  cbn [map].
  generalize (strip p0) (strip p1) (strip p2). clear p0 p1 p2. intros p0 p1 p2.
  destruct (py_int p0) as [r|e0] eqn:E0; cbn [bind in_byte_range].
  2:{ apply py_int_raises in E0. subst. reflexivity. }
  destruct (py_int p1) as [g|e1] eqn:E1; cbn [bind in_byte_range].
  2:{ apply py_int_raises in E1. subst.
      destruct ((0 <=? r) && (r <=? 255)); reflexivity. }
  destruct (py_int p2) as [b|e2] eqn:E2; cbn [bind in_byte_range].
  2:{ apply py_int_raises in E2. subst.
      destruct ((0 <=? r) && (r <=? 255)); [|reflexivity].
      destruct ((0 <=? g) && (g <=? 255)); reflexivity. }
  rewrite range_check. cbn [in_byte_range].
  destruct ((0 <=? r) && (r <=? 255)); [|reflexivity].
  destruct ((0 <=? g) && (g <=? 255)); [|reflexivity].
  destruct ((0 <=? b) && (b <=? 255)); reflexivity.
Qed.

Lemma parse_loop entries :
  forall colors,
    for_each entries parse_entry colors
    = match all_colors entries with
      | Some cs => Ok (colors ++ cs)
      | None => Raise ValueError
      end.
Proof.
  induction entries as [|e t IH]; intros colors; simpl.
  - now rewrite app_nil_r.
  - rewrite parse_entry_color.
    destruct (entry_color e) as [c|]; simpl; [|reflexivity].
    rewrite IH. destruct (all_colors t) as [cs|]; [|reflexivity].
    now rewrite <- app_assoc.
Qed.

Lemma parse_palette_entries s :
  parse_palette s
  = match all_colors (palette_entries s) with
    | Some (c :: cs) => Ok (c :: cs)
    | _ => Raise ValueError
    end.
Proof.
  unfold parse_palette, palette_entries.
  destruct s as [|c0 s0]; [reflexivity|].
  rewrite entries_stripped, parse_loop. cbn [app].
  destruct (all_colors _) as [[|c cs]|]; reflexivity.
Qed.

Lemma all_colors_Forall entries :
  (exists cs, all_colors entries = Some cs)
  <-> Forall (fun e => entry_color e <> None) entries.
Proof.
  induction entries as [|e t IH]; simpl.
  - split; [constructor|eauto].
  - split.
    + intros (cs & H). destruct (entry_color e) as [c|] eqn:E; [|discriminate].
      destruct (all_colors t) as [cs'|]; [|discriminate].
      constructor; [congruence|]. apply IH. eauto.
    + intros H. inversion H as [|? ? He Ht]; subst.
      apply IH in Ht. destruct Ht as (cs & ->).
      destruct (entry_color e); [eauto|congruence].
Qed.

Lemma all_colors_length entries cs :
  all_colors entries = Some cs -> List.length cs = List.length entries.
Proof.
  revert cs; induction entries as [|e t IH]; intros cs H; simpl in *.
  - now inversion H.
  - destruct (entry_color e); [|discriminate].
    destruct (all_colors t) as [cs'|]; [|discriminate].
    inversion H; subst. simpl. now rewrite (IH cs').
Qed.

Lemma palette_entries_skip_blank s1 blank s2 :
  Forall (fun c => isspace c = true) blank ->
  palette_entries (s1 ++ ";"%char :: blank ++ ";"%char :: s2)
  = palette_entries (s1 ++ ";"%char :: s2).
Proof.
  intros Hb. unfold palette_entries.
  rewrite !split_app, !map_app, !filter_app.
  rewrite (split_no_sep ";"%char blank).
  - simpl. rewrite (strip_blank _ Hb). reflexivity.
  - eapply Forall_impl; [|exact Hb]. intros c Hc.
    destruct (Ascii.eqb_spec c ";"%char) as [->|]; [discriminate Hc|reflexivity].
Qed.

(** C10.  [parse_palette] returns a list of colours, then a non-empty one,
    exactly when the string has a non-blank entry between semicolons and
    every such entry is three comma-separated integers in 0..255; the list
    holds the colours of these entries in order; otherwise it raises
    ValueError; and a blank entry between two semicolons changes nothing. *)
Theorem parse_palette_accepts_iff s :
  ((exists colors, parse_palette s = Ok colors)
   <-> (palette_entries s <> []
        /\ Forall (fun e => entry_color e <> None) (palette_entries s)))
  /\ (parse_palette s = Raise ValueError
      \/ exists colors,
           parse_palette s = Ok colors /\ colors <> []
           /\ all_colors (palette_entries s) = Some colors)
  /\ (forall s1 blank s2,
        Forall (fun c => isspace c = true) blank ->
        parse_palette (s1 ++ ";"%char :: blank ++ ";"%char :: s2)
        = parse_palette (s1 ++ ";"%char :: s2)).
Proof.
  split; [|split].
  - rewrite parse_palette_entries, <- all_colors_Forall. split.
    + intros (colors & H).
      destruct (all_colors (palette_entries s)) as [[|c cs]|] eqn:E; try discriminate.
      split; [|eauto]. intros N. rewrite N in E. simpl in E. discriminate.
    + intros (N & cs & E). rewrite E.
      destruct cs as [|c cs]; [|eauto].
      apply all_colors_length in E. simpl in E.
      destruct (palette_entries s); [congruence|discriminate].
  - rewrite parse_palette_entries.
    destruct (all_colors (palette_entries s)) as [[|c cs]|]; auto.
    right. exists (c :: cs). repeat split; congruence.
  - intros s1 blank s2 Hb.
    now rewrite !parse_palette_entries, palette_entries_skip_blank.
Qed.

(** ** Python floats *)

(** [fl64] against the Standard Library's binary64 division and
    multiplication: 1/49, 49 * (1/49), which is below 1, and 800/480. *)
Example fl64_agrees_with_binary64 :
  fl64 (1 # 49) = Q_of_b64 (SFdiv 53 1024 (b64_of_Z 1) (b64_of_Z 49))
  /\ fl64 (inject_Z 49 * fl64 (1 # 49))
     = Q_of_b64 (SFmul 53 1024 (b64_of_Z 49)
                   (SFdiv 53 1024 (b64_of_Z 1) (b64_of_Z 49)))
  /\ fl64 (inject_Z 49 * fl64 (1 # 49)) = (9007199254740991 # 9007199254740992)%Q
  /\ fl64 (800 # 480) = Q_of_b64 (SFdiv 53 1024 (b64_of_Z 800) (b64_of_Z 480)).
Proof.
  repeat split; vm_compute; reflexivity.
Qed.

(** The same comparison for every quotient [a / b] and every product
    [b * (a / b)] with [a] and [b] from 1 to 64. *)
Example fl64_agrees_on_small_ratios :
  forallb
    (fun a =>
       forallb
         (fun b =>
            let q := fl64 (Qmake (Zpos a) b) in
            let f := SFdiv 53 1024 (b64_of_Z (Zpos a)) (b64_of_Z (Zpos b)) in
            Qeq_bool q (Q_of_b64 f)
            && Qeq_bool (fl64 (inject_Z (Zpos b) * q))
                 (Q_of_b64 (SFmul 53 1024 (b64_of_Z (Zpos b)) f)))
         (map Pos.of_nat (seq 1 64)))
    (map Pos.of_nat (seq 1 64))
  = true.
Proof.
  vm_compute. reflexivity.
Qed.

Lemma Qred_inject_Z z : Qred (inject_Z z) = inject_Z z.
Proof.
  pose proof (Qred_correct (inject_Z z)) as C.
  pose proof (gcd_Qred (inject_Z z)) as G.
  destruct (Qred (inject_Z z)) as [n d]. unfold Qeq in C. simpl in *.
  rewrite Z.mul_1_r in C. subst n.
  rewrite Z.gcd_comm, Z.mul_comm, Z.gcd_mul_diag_l in G by lia.
  assert (d = 1%positive) by lia. subst d.
  unfold inject_Z. now rewrite Z.mul_1_r.
Qed.

(** Integers below 2^53 in magnitude are binary64 numbers. *)
Lemma fl64_int z : Z.abs z < 2 ^ 53 -> fl64 (inject_Z z) = inject_Z z.
Proof.
  intros Hz. unfold fl64. rewrite Qred_inject_Z. cbn [Qnum Qden inject_Z].
  destruct (z =? 0) eqn:E0.
  - apply Z.eqb_eq in E0. now subst.
  - apply Z.eqb_neq in E0.
    change (Z.log2 1) with 0. rewrite Z.sub_0_r.
    assert (Ha : 0 < Z.abs z) by lia.
    pose proof (Z.log2_nonneg (Z.abs z)) as Hk0.
    assert (Hk : Z.log2 (Z.abs z) < 53) by (apply Z.log2_lt_pow2; lia).
    pose proof (Z.log2_spec (Z.abs z) Ha) as [Hlo _].
    set (k := Z.log2 (Z.abs z)) in *.
    rewrite (Z.max_r 0 k) by lia. rewrite (Z.max_l 0 (- k)) by lia.
    assert (T : (1 * 2 ^ k <=? Z.abs z * 2 ^ 0) = true)
      by (apply Z.leb_le; rewrite Z.pow_0_r; lia).
    rewrite T.
    rewrite (Z.max_r 0 (- (k - 52))) by lia. rewrite (Z.max_l 0 (k - 52)) by lia.
    rewrite Z.pow_0_r, !Z.mul_1_r, Z.div_1_r, Z.mod_1_r.
    cbn [Z.mul Z.ltb Z.compare].
    set (t := - (k - 52)).
    assert (Ht : 0 < 2 ^ t) by (apply Z.pow_pos_nonneg; lia).
    rewrite <- (Qred_inject_Z z). apply Qred_complete.
    unfold Qeq, inject_Z; cbn [Qnum Qden].
    rewrite Z2Pos.id by lia. rewrite Z.mul_1_r, Z.mul_assoc.
    rewrite (Z.mul_comm (Z.sgn z)), Z.abs_sgn. reflexivity.
Qed.

Lemma fl64_compat p q : (p == q)%Q -> fl64 p = fl64 q.
Proof.
  intros H. unfold fl64. now rewrite (Qred_complete _ _ H).
Qed.

Lemma truediv_ok a b : b <> 0 -> exists q, truediv a b = Ok q.
Proof.
  intros H. unfold truediv.
  assert (E : (b =? 0) = false) by now apply Z.eqb_neq.
  rewrite E. eauto.
Qed.

(** A quotient that is an integer is computed exactly. *)
Lemma truediv_exact k b :
  b <> 0 -> Z.abs k < 2 ^ 53 -> truediv (k * b) b = Ok (inject_Z k).
Proof.
  intros Hb Hk. unfold truediv.
  assert (E : (b =? 0) = false) by now apply Z.eqb_neq.
  rewrite E. f_equal. rewrite <- (fl64_int k Hk). apply fl64_compat.
  unfold Qeq, inject_Z; cbn [Qnum Qden].
  rewrite Z2Pos.id by lia. rewrite <- (Z.sgn_abs b). ring.
Qed.

(** Equal ratios give the same float. *)
Lemma truediv_ratio a b c d :
  0 < b -> 0 < d -> a * d = c * b -> truediv a b = truediv c d.
Proof.
  intros Hb Hd H. unfold truediv.
  assert (Eb : (b =? 0) = false) by (apply Z.eqb_neq; lia).
  assert (Ed : (d =? 0) = false) by (apply Z.eqb_neq; lia).
  rewrite Eb, Ed. f_equal. apply fl64_compat.
  unfold Qeq; cbn [Qnum Qden]. rewrite !Z2Pos.id by lia.
  rewrite (Z.sgn_pos b), (Z.sgn_pos d), (Z.abs_eq b), (Z.abs_eq d) by lia.
  lia.
Qed.

Lemma float_sub_self k :
  Z.abs k < 2 ^ 53 ->
  int_of_float (float_sub (inject_Z k) (float_of_int k)) = 0.
Proof.
  intros Hk. unfold float_sub, float_of_int. rewrite (fl64_int k Hk).
  rewrite (fl64_compat _ 0%Q) by ring. reflexivity.
Qed.

(** Halves of integers below 2^53 are binary64 numbers, and [round]
    takes them to the even neighbour. *)
Lemma gcd_odd_2 z : Z.odd z = true -> Z.gcd z 2 = 1.
Proof.
  intros Ho.
  pose proof (Z.gcd_nonneg z 2) as Hn.
  pose proof (Z.gcd_divide_l z 2) as Hl.
  pose proof (Z.gcd_divide_r z 2) as Hr.
  assert (Hle : Z.gcd z 2 <= 2) by (apply Z.divide_pos_le; [lia|exact Hr]).
  assert (H0 : Z.gcd z 2 <> 0).
  { intros E. rewrite E in Hr. destruct Hr as [c Hc]. lia. }
  assert (H2 : Z.gcd z 2 <> 2).
  { intros E. rewrite E in Hl. destruct Hl as [c Hc].
    rewrite Hc, Z.mul_comm, Z.odd_mul in Ho. discriminate. }
  lia.
Qed.

Lemma Qred_half z : Z.odd z = true -> Qred (z # 2) = (z # 2).
Proof.
  intros Ho. unfold Qred.
  pose proof (Z.ggcd_gcd z 2) as G.
  pose proof (Z.ggcd_correct_divisors z 2) as D.
  destruct (Z.ggcd z 2) as [g [aa bb]]. cbn [fst snd] in *.
  rewrite (gcd_odd_2 z Ho) in G. subst g. destruct D as [D1 D2].
  rewrite Z.mul_1_l in D1, D2. subst. reflexivity.
Qed.

Lemma fl64_half z : Z.odd z = true -> Z.abs z < 2 ^ 53 -> fl64 (z # 2) = (z # 2).
Proof.
  intros Ho Hz. unfold fl64. rewrite (Qred_half z Ho). cbn [Qnum Qden].
  assert (Hz0 : z <> 0) by (intros ->; discriminate).
  assert (E0 : (z =? 0) = false) by now apply Z.eqb_neq.
  rewrite E0. change (Z.log2 2) with 1.
  assert (Ha : 0 < Z.abs z) by lia.
  pose proof (Z.log2_nonneg (Z.abs z)) as Hj0.
  assert (Hj : Z.log2 (Z.abs z) < 53) by (apply Z.log2_lt_pow2; lia).
  pose proof (Z.log2_spec (Z.abs z) Ha) as [Hlo _].
  set (j := Z.log2 (Z.abs z)) in *.
  assert (T : (2 * 2 ^ Z.max 0 (j - 1) <=? Z.abs z * 2 ^ Z.max 0 (- (j - 1))) = true).
  { apply Z.leb_le. destruct (Z.eq_dec j 0) as [J|J].
    - rewrite J. simpl. lia.
    - rewrite (Z.max_r 0 (j - 1)), (Z.max_l 0 (- (j - 1))) by lia.
      rewrite Z.pow_0_r, Z.mul_1_r.
      replace (2 * 2 ^ (j - 1)) with (2 ^ j); [exact Hlo|].
      replace j with (Z.succ (j - 1)) at 1 by lia.
      apply Z.pow_succ_r. lia. }
  rewrite T.
  rewrite (Z.max_l 0 (j - 1 - 52)) by lia.
  rewrite (Z.max_r 0 (- (j - 1 - 52))) by lia.
  rewrite Z.pow_0_r, !Z.mul_1_r.
  set (t := 52 - j).
  assert (Et : - (j - 1 - 52) = Z.succ t) by (unfold t; lia).
  rewrite Et. rewrite Z.pow_succ_r by (unfold t; lia).
  assert (Ht : 0 < 2 ^ t) by (apply Z.pow_pos_nonneg; unfold t; lia).
  replace (Z.abs z * (2 * 2 ^ t)) with ((Z.abs z * 2 ^ t) * 2) by ring.
  rewrite Z.div_mul by lia. rewrite Z.mod_mul by lia.
  change (2 * 0 <? 2) with true. cbv iota.
  rewrite <- (Qred_half z Ho). apply Qred_complete.
  unfold Qeq; cbn [Qnum Qden].
  rewrite Z2Pos.id by lia.
  rewrite (Z.mul_assoc (Z.sgn z)), (Z.mul_comm (Z.sgn z)), Z.abs_sgn. ring.
Qed.

Lemma py_round_int k : py_round (inject_Z k) = k.
Proof.
  unfold py_round. rewrite Qfloor_Z.
  assert (E : Qle_bool (inject_Z k - inject_Z k) (1 # 2) = true).
  { apply Qle_bool_iff. setoid_replace (inject_Z k - inject_Z k)%Q with 0%Q by ring.
    discriminate. }
  rewrite E.
  assert (F : Qle_bool (1 # 2) (inject_Z k - inject_Z k) = false).
  { destruct (Qle_bool (1 # 2) (inject_Z k - inject_Z k)) eqn:G; [|reflexivity].
    apply Qle_bool_iff in G.
    setoid_replace (inject_Z k - inject_Z k)%Q with 0%Q in G by ring.
    exfalso. apply G. reflexivity. }
  now rewrite F.
Qed.

Lemma py_round_odd_half z : Z.odd z = true -> py_round (z # 2) = round_half z.
Proof.
  intros Ho. unfold py_round, round_half.
  assert (Ef : Qfloor (z # 2) = z / 2) by reflexivity.
  rewrite Ef.
  assert (Ez : z = 2 * (z / 2) + 1).
  { rewrite (Z.div_mod z 2) at 1 by lia. rewrite <- Z.bit0_mod.
    rewrite Z.bit0_odd, Ho. reflexivity. }
  assert (Er : ((z # 2) - inject_Z (z / 2) == 1 # 2)%Q).
  { unfold Qeq, Qminus, Qplus, Qopp, inject_Z; cbn [Qnum Qden]. lia. }
  assert (E1 : Qle_bool ((z # 2) - inject_Z (z / 2)) (1 # 2) = true).
  { apply Qle_bool_iff. rewrite Er. apply Qle_refl. }
  assert (E2 : Qle_bool (1 # 2) ((z # 2) - inject_Z (z / 2)) = true).
  { apply Qle_bool_iff. rewrite Er. apply Qle_refl. }
  rewrite E1, E2.
  set (f := z / 2) in *.
  assert (M : z mod 4 = if Z.even f then 1 else 3).
  { destruct (Z.even f) eqn:Ev.
    - apply Z.even_spec in Ev. destruct Ev as [c Hc].
      symmetry. apply (Z.mod_unique_pos z 4 c); lia.
    - assert (Od : Z.odd f = true) by (rewrite <- Z.negb_even, Ev; reflexivity).
      apply Z.odd_spec in Od. destruct Od as [c Hc].
      symmetry. apply (Z.mod_unique_pos z 4 c); lia. }
  rewrite M. destruct (Z.even f); simpl; lia.
Qed.

Lemma round_half_of_int d :
  Z.abs d < 2 ^ 53 ->
  py_round (float_mul (float_of_int d) (1 # 2)) = round_half d.
Proof.
  intros Hd. unfold float_mul, float_of_int. rewrite (fl64_int d Hd).
  destruct (Z.odd d) eqn:Ho.
  - rewrite (fl64_compat _ (d # 2)).
    + rewrite (fl64_half d Ho Hd). now apply py_round_odd_half.
    + unfold Qeq, Qmult, inject_Z; cbn [Qnum Qden]. lia.
  - assert (Ev : Z.even d = true) by (rewrite <- Z.negb_odd, Ho; reflexivity).
    apply Z.even_spec in Ev. destruct Ev as [c Hc].
    rewrite (fl64_compat _ (inject_Z c)).
    + rewrite fl64_int by lia. rewrite py_round_int. unfold round_half.
      subst d. rewrite (Z.mul_comm 2 c), Z.div_mul by lia.
      assert (M : (c * 2) mod 4 <> 3).
      { intros E. pose proof (Z.div_mod (c * 2) 4). lia. }
      apply Z.eqb_neq in M. rewrite M. lia.
    + unfold Qeq, Qmult, inject_Z; cbn [Qnum Qden]. lia.
Qed.

(** ** Geometry *)

Lemma size_eqb_eq s1 s2 : size_eqb s1 s2 = true <-> s1 = s2.
Proof.
  destruct s1 as [a b], s2 as [c d]. unfold size_eqb; simpl.
  rewrite andb_true_iff, !Z.eqb_eq. split.
  - intros [-> ->]; reflexivity.
  - intros E; inversion E; auto.
Qed.

Lemma Image_new_ok sz c :
  0 <= fst sz -> 0 <= snd sz ->
  exists out, Image_new sz c = Ok out /\ size out = sz.
Proof.
  destruct sz as [w h]; simpl. intros Hw Hh. unfold Image_new.
  assert (E : ((w <? 0) || (h <? 0)) = false).
  { apply orb_false_iff. split; apply Z.ltb_ge; lia. }
  rewrite E. eexists. split; [reflexivity|].
  unfold size; simpl. now rewrite !Z2Nat.id by lia.
Qed.

Lemma Image_paste_size dst src left top :
  size (Image_paste dst src left top) = size dst.
Proof. reflexivity. Qed.

Lemma orient_size im tw th rot angle :
  (1 <= width im)%nat -> (1 <= height im)%nat ->
  size (fst (orient im tw th rot angle)) = snd (orient im tw th rot angle)
  /\ 1 <= fst (snd (orient im tw th rot angle))
  /\ 1 <= snd (snd (orient im tw th rot angle)).
Proof.
  intros Hw Hh. unfold orient, size.
  destruct (negb _); destruct rot; destruct angle; simpl; repeat split; lia.
Qed.

Lemma Image_new_pixels w h c :
  0 <= w -> 0 <= h ->
  Image_new (w, h) c = Ok (mkImage (Z.to_nat w) (Z.to_nat h) (fun _ _ => c)).
Proof.
  intros Hw Hh. unfold Image_new.
  assert (E : ((w <? 0) || (h <? 0)) = false).
  { apply orb_false_iff. split; apply Z.ltb_ge; lia. }
  now rewrite E.
Qed.

(** [contain] changes one side of the size at most. *)
Lemma contain_size_axis im sz rs :
  contain_size im sz = Ok rs -> fst rs = fst sz \/ snd rs = snd sz.
Proof.
  unfold contain_size. destruct (size im) as [w h].
  destruct (truediv w h) as [a|e]; cbn [bind]; [|discriminate].
  destruct (truediv (fst sz) (snd sz)) as [b|e]; cbn [bind]; [|discriminate].
  destruct (negb (Qeq_bool a b)).
  - destruct (negb (Qle_bool a b)).
    + destruct (truediv h w) as [r|e]; cbn [bind]; [|discriminate].
      intros E. injection E as <-. destruct (negb _); cbn [fst snd]; auto.
    + intros E. injection E as <-. destruct (negb _); cbn [fst snd]; auto.
  - intros E. injection E as <-. auto.
Qed.

(** Where a pasted strip of [inner] pixels starting at [before] covers
    index [i] of a side. *)
Lemma strip_cover before inner i :
  ((0 <=? Z.of_nat i - before) && (Z.of_nat i - before <? inner))
  = ((before <=? Z.of_nat i) && (Z.of_nat i <? before + inner)).
Proof.
  destruct (Z.leb_spec 0 (Z.of_nat i - before)),
           (Z.ltb_spec (Z.of_nat i - before) inner),
           (Z.leb_spec before (Z.of_nat i)),
           (Z.ltb_spec (Z.of_nat i) (before + inner)); simpl; try reflexivity; lia.
Qed.

Lemma strip_full inner i :
  (i < Z.to_nat inner)%nat ->
  ((0 <=? Z.of_nat i - 0) && (Z.of_nat i - 0 <? inner)) = true.
Proof.
  intros H. apply andb_true_iff. split; [apply Z.leb_le|apply Z.ltb_lt]; lia.
Qed.

Section GeometryProofs.

Variable resample : image -> nat -> nat -> nat -> nat -> rgb.

(** On an image with no empty side [resize] refuses a size with an empty
    side and otherwise returns an image of the size asked for. *)
Lemma Image_resize_spec im sz :
  1 <= fst (size im) -> 1 <= snd (size im) ->
  ((fst sz < 1 \/ snd sz < 1) -> Image_resize resample im sz = Raise ValueError)
  /\ (1 <= fst sz -> 1 <= snd sz ->
      exists out, Image_resize resample im sz = Ok out /\ size out = sz).
Proof.
  destruct sz as [w h]; simpl. intros Iw Ih. unfold Image_resize. split.
  - intros H.
    assert (S : size_eqb (size im) (w, h) = false).
    { destruct (size_eqb (size im) (w, h)) eqn:S; [|reflexivity].
      apply size_eqb_eq in S. unfold size in S. inversion S; subst. lia. }
    assert (E : ((w <? 1) || (h <? 1)) = true).
    { apply orb_true_iff. destruct H; [left|right]; apply Z.ltb_lt; lia. }
    now rewrite S, E.
  - intros Hw Hh.
    assert (E : ((w <? 1) || (h <? 1)) = false).
    { apply orb_false_iff. split; apply Z.ltb_ge; lia. }
    rewrite E. destruct (size_eqb (size im) (w, h)) eqn:S.
    + apply size_eqb_eq in S. eauto.
    + eexists. split; [reflexivity|].
      unfold size; simpl. now rewrite !Z2Nat.id by lia.
Qed.

Lemma scale_size_ok w h tw th :
  1 <= w -> 1 <= h -> exists rs, scale_size w h tw th = Ok rs.
Proof.
  intros Hw Hh. unfold scale_size.
  destruct (truediv_ok tw w) as (a & ->); [lia|].
  destruct (truediv_ok th h) as (b & ->); [lia|].
  simpl. eauto.
Qed.

(** The [padding] tuple splits the difference by floor division, and the
    [box] is the whole image. *)
Lemma cut_fill_ok w h tw th :
  1 <= w -> 1 <= h -> 0 < tw -> 0 < th ->
  exists delta,
    cut_fill w h tw th
    = Ok ((delta / 2, 0, delta - delta / 2, 0), (0, 0, w, h))
    \/ cut_fill w h tw th
       = Ok ((0, delta / 2, 0, delta - delta / 2), (0, 0, w, h)).
Proof.
  intros Hw Hh Htw Hth. unfold cut_fill.
  destruct (truediv_ok w h) as (a & ->); [lia|].
  destruct (truediv_ok tw th) as (b & ->); [lia|].
  cbn [bind]. destruct (Qle_bool b a).
  - destruct (truediv_ok (h * tw) th) as (q & ->); [lia|].
    cbn [bind]. eexists. left. reflexivity.
  - destruct (truediv_ok (w * th) tw) as (q & ->); [lia|].
    cbn [bind]. eexists. right. reflexivity.
Qed.

Lemma crop_full_size im w h :
  size im = (w, h) -> size (Image_crop im (0, 0, w, h)) = (w, h).
Proof.
  unfold size. intros E. inversion E; subst. simpl.
  now rewrite !Z.sub_0_r, !Nat2Z.id.
Qed.

Lemma contain_size_ok im sz :
  1 <= fst (size im) -> 1 <= snd (size im) -> 0 < snd sz ->
  exists rs, contain_size im sz = Ok rs.
Proof.
  intros Hw Hh Hs. unfold contain_size.
  destruct (size im) as [w h]; simpl in Hw, Hh.
  destruct (truediv_ok w h) as (a & Ea); [lia|].
  destruct (truediv_ok (fst sz) (snd sz)) as (b & ->); [lia|].
  destruct (truediv_ok h w) as (c & ->); [lia|].
  rewrite Ea. cbn [bind].
  destruct (negb (Qeq_bool a b)); [|eauto].
  destruct (negb (Qle_bool a b)); cbn [bind]; eauto.
Qed.

(** [ImageOps.pad] fails when the contained size has an empty side and
    otherwise returns an image of the size asked for. *)
Lemma ImageOps_pad_spec im sz rs color :
  1 <= fst (size im) -> 1 <= snd (size im) ->
  0 < fst sz -> 0 < snd sz ->
  contain_size im sz = Ok rs ->
  ((fst rs < 1 \/ snd rs < 1) ->
   ImageOps_pad resample im sz color = Raise ValueError)
  /\ (1 <= fst rs -> 1 <= snd rs ->
      exists out, ImageOps_pad resample im sz color = Ok out /\ size out = sz).
Proof.
  intros Iw Ih Hw Hh Hc. unfold ImageOps_pad, ImageOps_contain. rewrite Hc.
  cbn [bind]. destruct (Image_resize_spec im rs Iw Ih) as [Hbad Hgood]. split.
  - intros H. now rewrite (Hbad H).
  - intros H1 H2. destruct (Hgood H1 H2) as (resized & -> & Hsz).
    cbn [bind]. destruct (size_eqb (size resized) sz) eqn:S.
    + apply size_eqb_eq in S. eauto.
    + destruct (Image_new_ok sz color) as (out & -> & Ho); [lia|lia|].
      cbn [bind]. destruct (negb _); eexists; (split; [reflexivity|]);
        now rewrite Image_paste_size.
Qed.

(** C5.  Normalisation asks Pillow's [resize] for one size.  For every
    image and every target with sides from 1 to below 2^53: if that size
    has no side below 1, the result is an image of exactly the target size;
    in scale mode, if it has one, which the rounding of
    [int(width * scale_ratio)] brings about although the exact product is
    at least the target side, [resize] raises ValueError and no image is
    produced. *)
Theorem normalize_size_or_failure im tw th rot angle mode :
  (1 <= width im)%nat -> (1 <= height im)%nat ->
  Z.of_nat (width im) < 2 ^ 53 -> Z.of_nat (height im) < 2 ^ 53 ->
  0 < tw < 2 ^ 53 -> 0 < th < 2 ^ 53 ->
  exists rs,
    requested_size (fst (orient im tw th rot angle))
      (fst (snd (orient im tw th rot angle)))
      (snd (snd (orient im tw th rot angle))) tw th mode = Ok rs
    /\ (1 <= fst rs -> 1 <= snd rs ->
        exists out,
          normalize resample im tw th rot angle mode = Ok out
          /\ size out = (tw, th))
    /\ (mode = scale -> (fst rs < 1 \/ snd rs < 1) ->
        normalize resample im tw th rot angle mode = Raise ValueError).
Proof.
  intros Hw Hh _ _ [Htw _] [Hth _].
  destruct (orient_size im tw th rot angle Hw Hh) as (Hsz & H1 & H2).
  unfold normalize, requested_size.
  destruct (orient im tw th rot angle) as [im' [w h]]; cbn [fst snd] in *.
  destruct mode.
  - destruct (scale_size_ok w h tw th H1 H2) as ([rw rh] & E).
    exists (rw, rh). rewrite E. cbn [bind fst snd].
    destruct (Image_resize_spec im' (rw, rh)) as [Hbad Hgood];
      [rewrite Hsz; exact H1|rewrite Hsz; exact H2|].
    split; [reflexivity|]. split.
    + intros G1 G2. destruct (Hgood G1 G2) as (o & -> & _). cbn [bind].
      destruct (Image_new_ok (tw, th) white) as (canvas & -> & Hc);
        [simpl; lia|simpl; lia|].
      cbn [bind]. eexists. split; [reflexivity|].
      now rewrite Image_paste_size.
    + intros _ G. now rewrite (Hbad G).
  - destruct (cut_fill_ok w h tw th H1 H2 Htw Hth) as (delta & [E|E]);
      rewrite E; cbn [bind].
    all: pose proof (crop_full_size im' w h Hsz) as Hcrop.
    all: destruct (contain_size_ok (Image_crop im' (0, 0, w, h)) (tw, th))
           as (rs & Ers); [rewrite Hcrop; simpl; lia
                          |rewrite Hcrop; simpl; lia|simpl; lia|].
    all: exists rs; split; [exact Ers|].
    all: destruct (ImageOps_pad_spec (Image_crop im' (0, 0, w, h)) (tw, th)
                     rs white) as [Hbad Hgood];
           [rewrite Hcrop; exact H1|rewrite Hcrop; exact H2
           |exact Htw|exact Hth|exact Ers|].
    all: split; [exact Hgood|intros N; discriminate N].
Qed.

End GeometryProofs.

(** The slip at work.  A 49x49 image scaled to a 1x1 target: the ratio is
    the float 1/49, the product 49 * (1/49) is the float just below 1, [int]
    truncates it to 0, and [resize((0, 0))] raises ValueError. *)
Lemma scale_49_to_1_asks_empty_size :
  scale_size 49 49 1 1 = Ok (0, 0)
  /\ normalize nearest_resample (mkImage 49 49 (fun _ _ => (0, 0, 0)))
       1 1 false angle_270 scale
     = Raise ValueError.
Proof.
  split; vm_compute; reflexivity.
Qed.

(** The same rounding with a 2x2 target: the image is resized to 1x1, not
    to the 2x2 that covers the canvas, and three of the four pixels stay
    white. *)
Lemma scale_49_to_2_leaves_white :
  scale_size 49 49 2 2 = Ok (1, 1)
  /\ (out <- normalize nearest_resample (mkImage 49 49 (fun _ _ => (0, 0, 0)))
               2 2 false angle_270 scale ;;
      Ok (rows_of out))
     = Ok [ [(0, 0, 0); white]; [white; white] ].
Proof.
  split; vm_compute; reflexivity.
Qed.

Lemma normalize_size_or_failure_witness :
  normalize nearest_resample (mkImage 49 49 (fun _ _ => (0, 0, 0)))
    1 1 false angle_270 scale
  = Raise ValueError.
Proof.
  destruct (normalize_size_or_failure nearest_resample
              (mkImage 49 49 (fun _ _ => (0, 0, 0))) 1 1 false angle_270 scale)
    as (rs & Ers & _ & Hbad).
  - simpl; lia.
  - simpl; lia.
  - vm_compute; reflexivity.
  - vm_compute; reflexivity.
  - split; vm_compute; reflexivity.
  - split; vm_compute; reflexivity.
  - assert (E : rs = (0, 0)).
    { vm_compute in Ers. now inversion Ers. }
    subst rs. apply Hbad; [reflexivity|]. left. simpl. lia.
Defined.

Section CutProofs.

Variable resample : image -> nat -> nat -> nat -> nat -> rgb.

Lemma orient_same_aspect im tw th rot angle :
  (1 <= width im)%nat -> (1 <= height im)%nat -> 0 < tw -> 0 < th ->
  Z.of_nat (width im) * th = Z.of_nat (height im) * tw ->
  orient im tw th rot angle
  = (if rot then Image_rotate_180 im else im,
     (Z.of_nat (width im), Z.of_nat (height im))).
Proof.
  intros Hw Hh Htw Hth Hr. unfold orient, size.
  assert (E : (Z.of_nat (height im) <? Z.of_nat (width im)) = (th <? tw)).
  { destruct (Z.ltb_spec (Z.of_nat (height im)) (Z.of_nat (width im))),
             (Z.ltb_spec th tw); try reflexivity; nia. }
  rewrite E, Bool.eqb_reflx. reflexivity.
Qed.

(** With equal aspect ratios [contain] keeps the size asked for and [pad]
    returns the resized image itself. *)
Lemma normalize_cut_same_aspect im tw th (rot : bool) angle :
  (1 <= width im)%nat -> (1 <= height im)%nat -> 0 < tw -> 0 < th ->
  Z.of_nat (width im) * th = Z.of_nat (height im) * tw ->
  Z.of_nat (width im) < 2 ^ 53 ->
  exists out,
    normalize resample im tw th rot angle cut = Ok out
    /\ size out = (tw, th)
    /\ Image_resize resample
         (Image_crop (if rot then Image_rotate_180 im else im)
            (0, 0, Z.of_nat (width im), Z.of_nat (height im)))
         (tw, th) = Ok out.
Proof.
  intros Hw Hh Htw Hth Hr Hb.
  set (W := Z.of_nat (width im)) in *. set (H := Z.of_nat (height im)) in *.
  assert (HW : 1 <= W) by (unfold W; lia).
  assert (HH : 1 <= H) by (unfold H; lia).
  assert (Ecut : cut_fill W H tw th = Ok ((0, 0, 0, 0), (0, 0, W, H))).
  { unfold cut_fill.
    rewrite (truediv_ratio W H tw th) by lia.
    destruct (truediv_ok tw th) as (b & Eb); [lia|]. rewrite Eb.
    cbn [bind].
    assert (T : Qle_bool b b = true) by (apply Qle_bool_iff, Qle_refl).
    rewrite T. rewrite <- Hr.
    rewrite (truediv_exact W th) by lia. cbn [bind].
    rewrite float_sub_self by lia. reflexivity. }
  unfold normalize. rewrite (orient_same_aspect im tw th rot angle) by assumption.
  fold W H. rewrite Ecut. cbn [bind].
  set (im' := if rot then Image_rotate_180 im else im).
  assert (Hsz : size im' = (W, H)) by (unfold im'; destruct rot; reflexivity).
  pose proof (crop_full_size im' W H Hsz) as Hcrop.
  unfold ImageOps_pad, ImageOps_contain, contain_size.
  rewrite Hcrop. cbn [fst snd].
  rewrite (truediv_ratio W H tw th) by lia.
  destruct (truediv_ok tw th) as (b & Eb); [lia|]. rewrite Eb.
  cbn [bind].
  assert (T : Qeq_bool b b = true) by (apply Qeq_bool_iff; reflexivity).
  rewrite T. cbn [negb bind].
  destruct (Image_resize_spec resample (Image_crop im' (0, 0, W, H)) (tw, th))
    as [_ Hgood]; [rewrite Hcrop; exact HW|rewrite Hcrop; exact HH|].
  destruct Hgood as (out & Eo & So); [simpl; lia|simpl; lia|].
  rewrite Eo. cbn [bind].
  assert (S : size_eqb (size out) (tw, th) = true) by now apply size_eqb_eq.
  rewrite S. exists out. auto.
Qed.

(** The output of the cut mode around the image [contain] resized: [pad]
    pastes it on a white canvas at [round(delta * 0.5)] along the one axis
    where it is short of the target. *)
Lemma normalize_cut_padded im tw th (rot : bool) angle im' w h cw ch :
  (1 <= width im)%nat -> (1 <= height im)%nat ->
  0 < tw < 2 ^ 53 -> 0 < th < 2 ^ 53 ->
  orient im tw th rot angle = (im', (w, h)) ->
  contain_size (Image_crop im' (0, 0, w, h)) (tw, th) = Ok (cw, ch) ->
  1 <= cw < 2 ^ 53 -> 1 <= ch < 2 ^ 53 ->
  exists resized out,
    Image_resize resample (Image_crop im' (0, 0, w, h)) (cw, ch) = Ok resized
    /\ normalize resample im tw th rot angle cut = Ok out
    /\ size out = (tw, th)
    /\ (cw = tw \/ ch = th)
    /\ (cw <> tw ->
        forall x y, (x < width out)%nat -> (y < height out)%nat ->
          getpixel out x y
          = if (round_half (tw - cw) <=? Z.of_nat x)
               && (Z.of_nat x <? round_half (tw - cw) + cw)
            then getpixel resized (Z.to_nat (Z.of_nat x - round_half (tw - cw))) y
            else white)
    /\ (cw = tw ->
        forall x y, (x < width out)%nat -> (y < height out)%nat ->
          getpixel out x y
          = if (round_half (th - ch) <=? Z.of_nat y)
               && (Z.of_nat y <? round_half (th - ch) + ch)
            then getpixel resized x (Z.to_nat (Z.of_nat y - round_half (th - ch)))
            else white).
Proof.
  intros Hw Hh Htw Hth Ho Hc Hcw Hch.
  destruct (orient_size im tw th rot angle Hw Hh) as (Hsz & H1 & H2).
  rewrite Ho in Hsz, H1, H2. cbn [fst snd] in Hsz, H1, H2.
  pose proof (crop_full_size im' w h Hsz) as Hcrop.
  pose proof (contain_size_axis _ _ _ Hc) as Hax. cbn [fst snd] in Hax.
  destruct (Image_resize_spec resample (Image_crop im' (0, 0, w, h)) (cw, ch))
    as [_ Hgood]; [rewrite Hcrop; exact H1|rewrite Hcrop; exact H2|].
  destruct Hgood as (resized & Er & Sr); [simpl; lia|simpl; lia|].
  assert (Enorm : normalize resample im tw th rot angle cut
                  = ImageOps_pad resample (Image_crop im' (0, 0, w, h))
                      (tw, th) white).
  { unfold normalize. rewrite Ho.
    destruct (cut_fill_ok w h tw th H1 H2) as (delta & [E|E]);
      [lia|lia|rewrite E; reflexivity|rewrite E; reflexivity]. }
  rewrite Enorm. unfold ImageOps_pad, ImageOps_contain. rewrite Hc.
  cbn [bind]. rewrite Er. cbn [bind]. rewrite Sr.
  assert (Ewr : Z.of_nat (width resized) = cw)
    by (unfold size in Sr; now inversion Sr).
  assert (Ehr : Z.of_nat (height resized) = ch)
    by (unfold size in Sr; now inversion Sr).
  exists resized.
  destruct (size_eqb (cw, ch) (tw, th)) eqn:S.
  - apply size_eqb_eq in S. injection S as -> ->.
    exists resized. split; [reflexivity|]. split; [reflexivity|].
    split; [exact Sr|]. split; [now left|]. split; [intros N; now contradiction N|].
    intros _ x y Hx Hy. rewrite Z.sub_diag. change (round_half 0) with 0.
    rewrite <- strip_cover, Z.sub_0_r.
    assert (T : ((0 <=? Z.of_nat y) && (Z.of_nat y <? th)) = true).
    { apply andb_true_iff. split; [apply Z.leb_le|apply Z.ltb_lt]; lia. }
    rewrite T. now rewrite Nat2Z.id.
  - rewrite (Image_new_pixels tw th white) by lia. cbn [bind fst snd].
    rewrite Ewr, Ehr.
    rewrite !round_half_of_int by lia.
    destruct (cw =? tw) eqn:Ew; cbn [negb].
    + apply Z.eqb_eq in Ew. eexists. split; [reflexivity|].
      split; [reflexivity|]. split.
      { unfold size, Image_paste; cbn [width height].
        now rewrite !Z2Nat.id by lia. }
      split; [now left|]. split; [intros N; now contradiction N|].
      intros _ x y Hx Hy. unfold Image_paste in *. cbn [getpixel width height] in *.
      rewrite Ewr, Ehr.
      assert (Tx : ((0 <=? Z.of_nat x - 0) && (Z.of_nat x - 0 <? cw)) = true)
        by (apply strip_full; lia).
      rewrite Tx. cbn [andb]. rewrite strip_cover.
      now rewrite Z.sub_0_r, Nat2Z.id.
    + apply Z.eqb_neq in Ew. assert (Eh : ch = th) by (destruct Hax; [contradiction|assumption]).
      eexists. split; [reflexivity|].
      split; [reflexivity|]. split.
      { unfold size, Image_paste; cbn [width height].
        now rewrite !Z2Nat.id by lia. }
      split; [now right|]. split; [|intros N; now contradiction Ew].
      intros _ x y Hx Hy. unfold Image_paste in *. cbn [getpixel width height] in *.
      rewrite Ewr, Ehr.
      assert (Ty : ((0 <=? Z.of_nat y - 0) && (Z.of_nat y - 0 <? ch)) = true)
        by (apply strip_full; lia).
      rewrite <- andb_assoc. rewrite Ty, andb_true_r. rewrite strip_cover.
      now rewrite Z.sub_0_r, Nat2Z.id.
Qed.

(** C6 (amended).  In cut mode the white border is that of [ImageOps.pad]
    with centering 0.5 around the whole image (the [padding] tuple of lines
    151 and 156 is never read).  For sizes below 2^53, with [delta] the
    target side less the side [contain] resized the image to, on the one
    axis where they differ: [before = round(delta * 0.5)] border pixels
    come first, that is [delta // 2] and one more when [delta] is 3 modulo
    4, then the resized image, then the [delta - before] pixels left, all
    white.  When the source and target aspect ratios are equal the result is
    the resized image itself, of the target size, with no border. *)
Theorem cut_padding_rounds_half im tw th (rot : bool) angle :
  (1 <= width im)%nat -> (1 <= height im)%nat ->
  Z.of_nat (width im) < 2 ^ 53 -> Z.of_nat (height im) < 2 ^ 53 ->
  0 < tw < 2 ^ 53 -> 0 < th < 2 ^ 53 ->
  (forall im' w h cw ch,
     orient im tw th rot angle = (im', (w, h)) ->
     contain_size (Image_crop im' (0, 0, w, h)) (tw, th) = Ok (cw, ch) ->
     1 <= cw < 2 ^ 53 -> 1 <= ch < 2 ^ 53 ->
     exists resized out,
       Image_resize resample (Image_crop im' (0, 0, w, h)) (cw, ch) = Ok resized
       /\ normalize resample im tw th rot angle cut = Ok out
       /\ size out = (tw, th)
       /\ (cw = tw \/ ch = th)
       /\ (cw <> tw ->
           forall x y, (x < width out)%nat -> (y < height out)%nat ->
             getpixel out x y
             = if (round_half (tw - cw) <=? Z.of_nat x)
                  && (Z.of_nat x <? round_half (tw - cw) + cw)
               then getpixel resized
                      (Z.to_nat (Z.of_nat x - round_half (tw - cw))) y
               else white)
       /\ (cw = tw ->
           forall x y, (x < width out)%nat -> (y < height out)%nat ->
             getpixel out x y
             = if (round_half (th - ch) <=? Z.of_nat y)
                  && (Z.of_nat y <? round_half (th - ch) + ch)
               then getpixel resized x
                      (Z.to_nat (Z.of_nat y - round_half (th - ch)))
               else white))
  /\ (Z.of_nat (width im) * th = Z.of_nat (height im) * tw ->
      exists out,
        normalize resample im tw th rot angle cut = Ok out
        /\ size out = (tw, th)
        /\ Image_resize resample
             (Image_crop (if rot then Image_rotate_180 im else im)
                (0, 0, Z.of_nat (width im), Z.of_nat (height im)))
             (tw, th) = Ok out).
Proof.
  intros Hw Hh Bw Bh Htw Hth. split.
  - intros im' w h cw ch Ho Hc Hcw Hch.
    exact (normalize_cut_padded im tw th rot angle im' w h cw ch
             Hw Hh Htw Hth Ho Hc Hcw Hch).
  - intros Hr. apply normalize_cut_same_aspect; try assumption; lia.
Qed.

End CutProofs.

(** C6 (counterexample).  A 2x1 image padded into 5x1: [delta] is 3 and
    [round(1.5)] is 2, so two white pixels come before the image and one
    after it, where [delta // 2] would put one before and two after. *)
Lemma cut_2x1_into_5x1_pads_2_before :
  (out <- normalize nearest_resample (of_rows 2 [ [(255, 0, 0); (0, 0, 255)] ])
            5 1 false angle_270 cut ;;
   Ok (rows_of out))
  = Ok [ [white; white; (255, 0, 0); (0, 0, 255); white] ].
Proof.
  vm_compute. reflexivity.
Qed.

Lemma cut_padding_rounds_half_witness :
  exists out,
    normalize nearest_resample (of_rows 2 [ [(255, 0, 0); (0, 0, 255)] ])
      9 1 false angle_270 cut = Ok out
    /\ size out = (9, 1)
    /\ getpixel out 3 0 = white
    /\ getpixel out 6 0 = white.
Proof.
  destruct (proj1 (cut_padding_rounds_half nearest_resample
                     (of_rows 2 [ [(255, 0, 0); (0, 0, 255)] ])
                     9 1 false angle_270
                     ltac:(simpl; lia) ltac:(simpl; lia)
                     ltac:(vm_compute; reflexivity) ltac:(vm_compute; reflexivity)
                     ltac:(split; vm_compute; reflexivity)
                     ltac:(split; vm_compute; reflexivity))
              (of_rows 2 [ [(255, 0, 0); (0, 0, 255)] ]) 2 1 2 1)
    as (resized & out & _ & En & So & _ & Hx & _).
  - reflexivity.
  - vm_compute. reflexivity.
  - split; [lia|vm_compute; reflexivity].
  - split; [lia|vm_compute; reflexivity].
  - exists out. split; [exact En|]. split; [exact So|].
    assert (N : 2 <> 9) by lia. specialize (Hx N).
    unfold size in So. injection So as Sw Sh.
    split.
    + rewrite (Hx 3%nat 0%nat) by lia. reflexivity.
    + rewrite (Hx 6%nat 0%nat) by lia. reflexivity.
Defined.

(** ** The scenario of a 1x2 black image *)

(** C2 (the code departs from the claim).  Palette black and white, raw map
    [0, 1], no dithering, a 1x2 black image scaled to 1x2: both pixels get
    palette index 0, but the raw buffer is empty: the single column is the
    even column 0, whose raw value is only stored in [raw_pending].  The
    fixed script with its own tables does the same. *)
Theorem convert_1x2_black_no_byte
  (resample : image -> nat -> nat -> nat -> nat -> rgb) :
  (r <- convert_no_dither resample [(0, 0, 0); (255, 255, 255)]
          [(0, 0, 0); (255, 255, 255)] [0; 1]
          (mkImage 1 2 (fun _ _ => (0, 0, 0))) 1 2 false angle_270 scale ;;
   Ok (fst r, raw_pending (snd r), raw_bytes (snd r)))
  = Ok ([[O]; [O]], 0, [])
  /\ (r <- convert_no_dither resample SPECTRA6_REAL_WORD_RGB SPECTRA6_DEVICE_RGB
             SPECTRA6_DEVICE_INDEX_TO_RAW
             (mkImage 1 2 (fun _ _ => (0, 0, 0))) 1 2 false angle_270 scale ;;
      Ok (fst r, raw_pending (snd r), raw_bytes (snd r)))
     = Ok ([[O]; [O]], 0, []).
Proof.
  split; vm_compute; reflexivity.
Qed.

(** * Further properties of the code *)

(** ** The device image left by the packing loop *)

Section PackDevice.

Variable REAL_WORD_RGB : list rgb.
Variable DEVICE_RGB : list rgb.
Variable DEVICE_INDEX_TO_RAW : list Z.

Let step (st : pack_state) (p : nat * nat) : result pack_state :=
  pack_pixel REAL_WORD_RGB DEVICE_RGB DEVICE_INDEX_TO_RAW (snd p) st (fst p).

(** A successful iteration recolours the pixel it visits with the device
    colour of its palette index. *)
Lemma pack_pixel_write st st' x y :
  pack_pixel REAL_WORD_RGB DEVICE_RGB DEVICE_INDEX_TO_RAW y st x = Ok st' ->
  exists i dv,
    list_index (getpixel (pixels st) x y) REAL_WORD_RGB = Ok i
    /\ subscript DEVICE_RGB i = Ok dv
    /\ pixels st' = putpixel (pixels st) x y dv.
Proof.
  unfold pack_pixel. intros H.
  destruct (list_index (getpixel (pixels st) x y) REAL_WORD_RGB) as [i|e] eqn:Ei;
    cbn [bind] in H; [|discriminate].
  destruct (subscript DEVICE_RGB i) as [dv|e] eqn:Ed; cbn [bind] in H;
    [|discriminate].
  destruct (subscript DEVICE_INDEX_TO_RAW i) as [rv|e]; cbn [bind] in H;
    [|discriminate].
  destruct (py_assert _) as [u|e]; cbn [bind] in H; [|discriminate].
  exists i, dv. split; [reflexivity|]. split; [exact Ed|].
  destruct (Z.land _ 1 =? 0); [now inversion H|].
  destruct (bytearray_append _ _); cbn [bind] in H; [now inversion H|discriminate].
Qed.

Lemma putpixel_same im x y c : getpixel (putpixel im x y c) x y = c.
Proof.
  unfold putpixel; simpl. now rewrite !Nat.eqb_refl.
Qed.

Lemma pack_loop_device im cs :
  NoDup cs ->
  forall st st',
    (forall p, In p cs ->
       getpixel (pixels st) (fst p) (snd p) = getpixel im (fst p) (snd p)) ->
    for_each cs step st = Ok st' ->
    width (pixels st') = width (pixels st)
    /\ height (pixels st') = height (pixels st)
    /\ (forall p, In p cs ->
          exists i,
            list_index (getpixel im (fst p) (snd p)) REAL_WORD_RGB = Ok i
            /\ subscript DEVICE_RGB i = Ok (getpixel (pixels st') (fst p) (snd p)))
    /\ (forall p, ~ In p cs ->
          getpixel (pixels st') (fst p) (snd p)
          = getpixel (pixels st) (fst p) (snd p)).
Proof.
  induction 1 as [|[x y] cs Hnin Hnd IH]; intros st st' Hpx Hrun; simpl in Hrun.
  - inversion Hrun; subst. repeat split; auto. intros p [].
  - unfold step at 1 in Hrun. simpl in Hrun.
    destruct (pack_pixel _ _ _ y st x) as [st1|e] eqn:E; simpl in Hrun;
      [|discriminate].
    destruct (pack_pixel_write _ _ _ _ E) as (i & dv & Hi & Hdv & Hst1).
    assert (Hframe : forall q, q <> (x, y) ->
              getpixel (pixels st1) (fst q) (snd q)
              = getpixel (pixels st) (fst q) (snd q)).
    { intros [x' y'] Hq. simpl. now apply (pack_pixel_frame _ _ _ _ _ _ _ _ _ E). }
    destruct (IH st1 st') as (Hw & Hh & Hin & Hout); [|exact Hrun|].
    { intros q Hq. rewrite Hframe; [now apply Hpx; right|].
      intros ->. contradiction. }
    rewrite Hst1 in Hw, Hh. simpl in Hw, Hh.
    split; [exact Hw|]. split; [exact Hh|]. split.
    + intros p [<-|Hp]; [|now apply Hin].
      pose proof (Hpx (x, y) (or_introl eq_refl)) as Hxy.
      pose proof (Hout (x, y) Hnin) as Ho. cbn [fst snd] in *.
      exists i. split; [now rewrite <- Hxy|].
      rewrite Ho, Hst1, putpixel_same. exact Hdv.
    + intros p Hp. rewrite Hout by (intros F; apply Hp; now right).
      apply Hframe. intros ->. apply Hp. now left.
Qed.

(** X1.  When the loop returns, the image it leaves (the one saved as the
    device BMP) has the size of the quantized image, and each of its pixels
    is the device colour at the palette index of the quantized pixel it
    replaces: every pixel is read once, before it is overwritten, and
    written once. *)
Theorem pack_device_image im st :
  pack REAL_WORD_RGB DEVICE_RGB DEVICE_INDEX_TO_RAW im = Ok st ->
  width (pixels st) = width im
  /\ height (pixels st) = height im
  /\ forall x y, (x < width im)%nat -> (y < height im)%nat ->
       exists index,
         list_index (getpixel im x y) REAL_WORD_RGB = Ok index
         /\ subscript DEVICE_RGB index = Ok (getpixel (pixels st) x y).
Proof.
  unfold pack, pack_row. rewrite for_each_nested. intros Hrun.
  destruct (pack_loop_device im _ (scan_order_NoDup (width im) (height im))
              (mkPack im 0 []) st) as (Hw & Hh & Hin & _); auto.
  split; [exact Hw|]. split; [exact Hh|].
  intros x y Hx Hy. apply (Hin (x, y)). now apply in_scan_order.
Qed.

End PackDevice.

Lemma pack_device_image_witness :
  exists st,
    pack_spectra6 (of_rows 2 [ [(25, 30, 33); (18, 95, 32)] ]) = Ok st
    /\ rows_of (pixels st) = [ [(0, 0, 0); (0, 255, 0)] ].
Proof.
  destruct (pack_spectra6 (of_rows 2 [ [(25, 30, 33); (18, 95, 32)] ]))
    as [st|e] eqn:E.
  - exists st. split; [reflexivity|].
    destruct (pack_device_image _ _ _ _ _ E) as (Hw & Hh & Hpx).
    unfold rows_of, to_rows. rewrite Hw, Hh. simpl.
    destruct (Hpx 0%nat 0%nat) as (i0 & H0 & D0); [simpl; lia|simpl; lia|].
    destruct (Hpx 1%nat 0%nat) as (i1 & H1 & D1); [simpl; lia|simpl; lia|].
    vm_compute in H0, H1. injection H0 as <-. injection H1 as <-.
    unfold subscript in D0, D1. simpl in D0, D1.
    injection D0 as G0. injection D1 as G1. now rewrite <- G0, <- G1.
  - vm_compute in E. discriminate E.
Defined.

(** ** The nibble stream of an even-width image *)

Lemma nibble_decode p r :
  0 <= p < 8 -> 0 <= r < 8 ->
  nibbles [Z.lor (Z.shiftl p 4) r] = [p; r].
Proof.
  intros Hp Hr.
  assert (Ep : p = 0 \/ p = 1 \/ p = 2 \/ p = 3 \/ p = 4 \/ p = 5 \/ p = 6 \/ p = 7) by lia.
  assert (Er : r = 0 \/ r = 1 \/ r = 2 \/ r = 3 \/ r = 4 \/ r = 5 \/ r = 6 \/ r = 7) by lia.
  repeat (destruct Ep as [->|Ep]); try subst p;
    repeat (destruct Er as [->|Er]); try subst r; reflexivity.
Qed.

Lemma nibbles_app a b : nibbles (a ++ b) = nibbles a ++ nibbles b.
Proof.
  unfold nibbles. apply flat_map_app.
Qed.

Lemma alternating_app l1 l2 :
  alternating l1 -> alternating l2 -> alternating (l1 ++ l2).
Proof.
  induction 1; intros H2; simpl; [exact H2|].
  constructor; auto.
Qed.

Lemma reversed_range_step n :
  reversed_range (S (S n)) = S n :: n :: reversed_range n.
Proof.
  unfold reversed_range. rewrite !seq_S. simpl.
  rewrite <- app_assoc. simpl. now rewrite rev_app_distr.
Qed.

Lemma alternating_row (g : nat -> rgb) k :
  alternating (map (fun x => (x, g x)) (reversed_range (2 * k))).
Proof.
  induction k as [|k IH]; [constructor|].
  replace (2 * S k)%nat with (S (S (2 * k))) by lia.
  rewrite reversed_range_step. cbn [map].
  assert (E : Nat.even (2 * k) = true) by (apply Nat.even_spec; now exists k).
  constructor.
  - change (Nat.odd (S (2 * k)) = true). now rewrite Nat.odd_succ.
  - change (Nat.odd (2 * k) = false). now rewrite <- Nat.negb_even, E.
  - exact IH.
Qed.

Lemma alternating_scan im :
  Nat.even (width im) = true ->
  alternating (map (fun p : nat * nat => (fst p, getpixel im (fst p) (snd p)))
                 (scan_order (width im) (height im))).
Proof.
  intros Hev. apply Nat.even_spec in Hev. destruct Hev as [k Hk].
  unfold scan_order. rewrite Hk.
  generalize (reversed_range (height im)) as ys.
  induction ys as [|y ys IH]; simpl; [constructor|].
  rewrite map_app. apply alternating_app; [|exact IH].
  rewrite map_map. simpl. apply (alternating_row (fun x => getpixel im x y)).
Qed.

Section NibbleStream.

Variable REAL_WORD_RGB : list rgb.
Variable DEVICE_RGB : list rgb.
Variable DEVICE_INDEX_TO_RAW : list Z.

Hypothesis device_aligned :
  (List.length REAL_WORD_RGB <= List.length DEVICE_RGB)%nat.
Hypothesis raw_aligned :
  (List.length REAL_WORD_RGB <= List.length DEVICE_INDEX_TO_RAW)%nat.
Hypothesis raw_nonneg : Forall (fun v => 0 <= v) DEVICE_INDEX_TO_RAW.

Let sstep := scan_step REAL_WORD_RGB DEVICE_RGB DEVICE_INDEX_TO_RAW.
Let raw := raw_of REAL_WORD_RGB DEVICE_INDEX_TO_RAW.

Lemma scan_step_palette x c pb :
  In c REAL_WORD_RGB -> raw c < 8 ->
  0 <= raw c /\ sstep pb (x, c) = emit x (raw c) pb.
Proof.
  intros Hin Hlt.
  destruct (lookup_palette_colour _ _ _ device_aligned raw_aligned raw_nonneg c Hin)
    as (Hge & dv & Hlk).
  fold raw in Hge, Hlk.
  assert (T : (raw c <? 8) = true) by now apply Z.ltb_lt.
  rewrite T in Hlk. split; [exact Hge|].
  unfold sstep, scan_step. cbn [fst snd]. now rewrite Hlk.
Qed.

Lemma scan_alternating l :
  alternating l ->
  (forall xc, In xc l -> In (snd xc) REAL_WORD_RGB /\ raw (snd xc) < 8) ->
  forall pb, 0 <= fst pb < 8 ->
    exists pb' new,
      for_each l sstep pb = Ok pb'
      /\ snd pb' = snd pb ++ new
      /\ nibbles new ++ [fst pb'] = fst pb :: map (fun xc => raw (snd xc)) l
      /\ 0 <= fst pb' < 8.
Proof.
  induction 1 as [|[xo co] [xe ce] l Ho He Halt IH]; intros Hl pb Hp.
  - exists pb, []. simpl. rewrite app_nil_r. auto.
  - destruct (Hl (xo, co) (or_introl eq_refl)) as [Hino Hlto].
    destruct (Hl (xe, ce) (or_intror (or_introl eq_refl))) as [Hine Hlte].
    simpl in Ho, He, Hino, Hlto, Hine, Hlte.
    destruct (scan_step_palette xo co pb Hino Hlto) as [Hgo Eo].
    pose proof (nibble_pair_range (fst pb) (raw co) Hp (conj Hgo Hlto)) as R.
    assert (E1 : sstep pb (xo, co)
                 = Ok (fst pb, snd pb ++ [Z.lor (Z.shiftl (fst pb) 4) (raw co)])).
    { rewrite Eo. unfold emit. rewrite land_1_odd, Ho. cbn [negb].
      unfold bytearray_append.
      assert (T : ((0 <=? Z.lor (Z.shiftl (fst pb) 4) (raw co))
                   && (Z.lor (Z.shiftl (fst pb) 4) (raw co) <? 256)) = true).
      { apply andb_true_iff. split; [apply Z.leb_le|apply Z.ltb_lt]; lia. }
      rewrite T. reflexivity. }
    set (bs1 := snd pb ++ [Z.lor (Z.shiftl (fst pb) 4) (raw co)]) in *.
    destruct (scan_step_palette xe ce (fst pb, bs1) Hine Hlte) as [Hge Ee].
    assert (E2 : sstep (fst pb, bs1) (xe, ce) = Ok (raw ce, bs1)).
    { rewrite Ee. unfold emit. rewrite land_1_odd, He. reflexivity. }
    destruct (IH (fun xc H => Hl xc (or_intror (or_intror H))) (raw ce, bs1))
      as (pb' & new & Erun & Esnd & Enib & Hp'); [simpl; lia|].
    exists pb', (Z.lor (Z.shiftl (fst pb) 4) (raw co) :: new).
    split.
    + cbn [for_each]. rewrite E1. cbn [bind]. rewrite E2. cbn [bind]. exact Erun.
    + split.
      * rewrite Esnd. cbn [snd]. unfold bs1. now rewrite <- app_assoc.
      * split; [|exact Hp'].
        change (Z.lor (Z.shiftl (fst pb) 4) (raw co) :: new)
          with ([Z.lor (Z.shiftl (fst pb) 4) (raw co)] ++ new).
        rewrite nibbles_app, nibble_decode by (auto; lia).
        cbn [app map snd]. cbn [fst] in Enib. now rewrite Enib.
Qed.

(** X2.  For an image of even width whose pixels are palette colours with
    raw values below 8, the loop returns, and the nibbles of its bytes in
    order, followed by the value left in [raw_pending], are a 0 and then the
    raw values of all pixels in reverse raster order: the stream the device
    reads is shifted by one nibble and lacks the pixel of column 0, row 0. *)
Theorem pack_nibble_stream im :
  Nat.even (width im) = true ->
  (forall x y, (x < width im)%nat -> (y < height im)%nat ->
     In (getpixel im x y) REAL_WORD_RGB /\ raw (getpixel im x y) < 8) ->
  exists st,
    pack REAL_WORD_RGB DEVICE_RGB DEVICE_INDEX_TO_RAW im = Ok st
    /\ nibbles (raw_bytes st) ++ [raw_pending st]
       = 0 :: map (fun p : nat * nat => raw (getpixel im (fst p) (snd p)))
                (scan_order (width im) (height im)).
Proof.
  intros Hev Hpx.
  pose proof (pack_scan REAL_WORD_RGB DEVICE_RGB DEVICE_INDEX_TO_RAW im) as S.
  destruct (scan_alternating _ (alternating_scan im Hev)) with (pb := (0, @nil Z))
    as (pb' & new & Erun & Esnd & Enib & _).
  - intros xc Hxc. apply in_map_iff in Hxc. destruct Hxc as ([x y] & <- & Hin).
    apply in_scan_order in Hin. simpl. now apply Hpx.
  - simpl; lia.
  - simpl in S. fold sstep in S. rewrite Erun in S.
    destruct (pack _ _ _ im) as [st|e]; simpl in S; [|discriminate].
    exists st. split; [reflexivity|].
    injection S as Hpb. destruct pb' as [pend bytes].
    injection Hpb as Hpend Hbytes. cbn [fst snd app] in Esnd, Enib.
    rewrite Hpend, Hbytes, Esnd, Enib. now rewrite map_map.
Qed.

End NibbleStream.

Lemma pack_nibble_stream_witness :
  exists st,
    pack_spectra6
      (of_rows 2 [ [(25, 30, 33); (232, 232, 232)];
                   [(239, 222, 68); (178, 19, 24)] ]) = Ok st
    /\ nibbles (raw_bytes st) ++ [raw_pending st] = [0; 3; 2; 1; 0].
Proof.
  apply (pack_nibble_stream SPECTRA6_REAL_WORD_RGB SPECTRA6_DEVICE_RGB
           SPECTRA6_DEVICE_INDEX_TO_RAW ltac:(simpl; lia) ltac:(simpl; lia)
           ltac:(repeat constructor; lia)
           (of_rows 2 [ [(25, 30, 33); (232, 232, 232)];
                        [(239, 222, 68); (178, 19, 24)] ])).
  - reflexivity.
  - intros x y Hx Hy. simpl in Hx, Hy.
    destruct y as [|[|y]]; [| |lia];
      (destruct x as [|[|x]]; [| |lia]);
      (split; [simpl; tauto|vm_compute; reflexivity]).
Defined.

(** ** A pixel outside the palette *)

Lemma list_index_raises c l e : list_index c l = Raise e -> e = ValueError.
Proof.
  induction l as [|a l IH]; simpl; intros H.
  - now inversion H.
  - destruct (rgb_eqb a c); [discriminate|].
    destruct (list_index c l) as [i|e']; simpl in H; [discriminate|].
    inversion H; subst. now apply IH.
Qed.

Lemma list_index_found c l i : list_index c l = Ok i -> In c l.
Proof.
  intros H. apply list_index_nth in H. eapply nth_error_In; eauto.
Qed.

Section ForeignPixel.

Variable REAL_WORD_RGB : list rgb.
Variable DEVICE_RGB : list rgb.
Variable DEVICE_INDEX_TO_RAW : list Z.

Hypothesis device_aligned :
  (List.length REAL_WORD_RGB <= List.length DEVICE_RGB)%nat.
Hypothesis raw_aligned :
  (List.length REAL_WORD_RGB <= List.length DEVICE_INDEX_TO_RAW)%nat.
Hypothesis raw_nonneg : Forall (fun v => 0 <= v) DEVICE_INDEX_TO_RAW.
Hypothesis raw_small :
  forall c, In c REAL_WORD_RGB -> raw_of REAL_WORD_RGB DEVICE_INDEX_TO_RAW c < 8.

Let sstep := scan_step REAL_WORD_RGB DEVICE_RGB DEVICE_INDEX_TO_RAW.

Lemma scan_foreign (l : list (nat * rgb)) :
  (exists xc, In xc l /\ ~ In (snd xc) REAL_WORD_RGB) ->
  forall pb,
    0 <= fst pb < 8 -> Forall (fun b => 0 <= b < 128) (snd pb) ->
    for_each l sstep pb = Raise ValueError.
Proof.
  induction l as [|[x c] l IH]; intros (bad & Hbad & Hout) pb Hp Hb.
  - contradiction.
  - cbn [for_each].
    destruct (list_index c REAL_WORD_RGB) as [i|e] eqn:Ei.
    + pose proof (list_index_found _ _ _ Ei) as Hin.
      destruct (scan_step_palette _ _ _ device_aligned raw_aligned raw_nonneg
                  x c pb Hin (raw_small c Hin)) as [Hge Es].
      cbv zeta in Es. fold sstep in Es. rewrite Es.
      destruct (emit_ok _ _ _ device_aligned raw_aligned x _ pb Hp
                  (conj Hge (raw_small c Hin)) Hb)
        as (pb1 & E & Hp1 & Hb1).
      rewrite E. cbn [bind]. apply IH; auto.
      destruct Hbad as [<-|Hbad]; [contradiction|]. exists bad; auto.
    + pose proof (list_index_raises _ _ _ Ei) as ->.
      unfold sstep at 1, scan_step, lookup. cbn [fst snd]. rewrite Ei. reflexivity.
Qed.

(** X3.  With tables under which every palette colour packs, an image that
    holds a pixel whose colour is not in the palette makes the loop fail
    with the ValueError of [list.index]; no byte is returned. *)
Theorem pack_foreign_pixel im :
  (exists x y, (x < width im)%nat /\ (y < height im)%nat
               /\ ~ In (getpixel im x y) REAL_WORD_RGB) ->
  pack REAL_WORD_RGB DEVICE_RGB DEVICE_INDEX_TO_RAW im = Raise ValueError.
Proof.
  intros (x & y & Hx & Hy & Hout).
  pose proof (pack_scan REAL_WORD_RGB DEVICE_RGB DEVICE_INDEX_TO_RAW im) as S.
  simpl in S. fold sstep in S. rewrite scan_foreign in S.
  - destruct (pack _ _ _ im) as [st|e]; simpl in S; congruence.
  - exists (x, getpixel im x y). split; [|exact Hout].
    apply in_map_iff. exists (x, y). split; [reflexivity|].
    now apply in_scan_order.
  - simpl; lia.
  - constructor.
Qed.

End ForeignPixel.

Lemma pack_foreign_pixel_witness :
  pack_spectra6 (of_rows 2 [ [(25, 30, 33); (0, 0, 0)] ]) = Raise ValueError.
Proof.
  apply (pack_foreign_pixel SPECTRA6_REAL_WORD_RGB SPECTRA6_DEVICE_RGB
           SPECTRA6_DEVICE_INDEX_TO_RAW).
  - simpl; lia.
  - simpl; lia.
  - repeat constructor; lia.
  - intros c Hc. simpl in Hc.
    repeat (destruct Hc as [<-|Hc]); [..|contradiction]; vm_compute; reflexivity.
  - exists 1%nat, 0%nat. split; [simpl; lia|]. split; [simpl; lia|].
    simpl. intros H.
    repeat (destruct H as [H|H]; [discriminate H|]). exact H.
Defined.

(** ** The palette table: errors and contents *)

(** X4.  [build_palette_table] fails on the empty list alone, with the
    IndexError of [colors[0]]; its own length check never raises.  On a
    non-empty list it returns the first 256 colours followed by as many
    copies of the first colour as are missing, 768 values in all. *)
Theorem build_palette_table_outcome :
  build_palette_table [] = Raise IndexError
  /\ forall c cs,
       build_palette_table (c :: cs)
       = Ok (flatten_colors
               (firstn 256 (c :: cs) ++ repeat c (256 - List.length (c :: cs))))
       /\ List.length
            (flatten_colors
               (firstn 256 (c :: cs) ++ repeat c (256 - List.length (c :: cs))))
          = 768%nat.
Proof.
  split; [reflexivity|]. intros c cs.
  destruct (Nat.lt_ge_cases (List.length (c :: cs)) 256) as [Hlt|Hge].
  - rewrite firstn_all2 by lia. split.
    + apply (build_palette_table_short _ c cs eq_refl Hlt).
    + rewrite flatten_colors_length, length_app, repeat_length. lia.
  - replace (256 - List.length (c :: cs))%nat with O by lia.
    cbn [repeat]. rewrite app_nil_r. split.
    + apply build_palette_table_long. exact Hge.
    + rewrite flatten_colors_length, firstn_length_le by exact Hge. reflexivity.
Qed.

Lemma in_byte_range_value r v : in_byte_range r = Some v -> byte_value v.
Proof.
  unfold in_byte_range, byte_value. destruct r as [z|e]; [|discriminate].
  destruct ((0 <=? z) && (z <=? 255)) eqn:E; [|discriminate].
  intros H; inversion H; subst. apply andb_true_iff in E.
  destruct E as [E1 E2]. apply Z.leb_le in E1, E2. lia.
Qed.

Lemma entry_color_range e c :
  entry_color e = Some c -> Forall byte_value (channels c).
Proof.
  unfold entry_color.
  destruct (split ","%char e) as [|p0 [|p1 [|p2 [|p3 l]]]]; try discriminate.
  destruct (in_byte_range (py_int (strip p0))) as [r|] eqn:Er; [|discriminate].
  destruct (in_byte_range (py_int (strip p1))) as [g|] eqn:Eg; [|discriminate].
  destruct (in_byte_range (py_int (strip p2))) as [b|] eqn:Eb; [|discriminate].
  intros H; inversion H; subst. simpl.
  constructor; [exact (in_byte_range_value _ _ Er)|].
  constructor; [exact (in_byte_range_value _ _ Eg)|].
  constructor; [exact (in_byte_range_value _ _ Eb)|constructor].
Qed.

Lemma all_colors_range entries colors :
  all_colors entries = Some colors ->
  Forall (fun c => Forall byte_value (channels c)) colors.
Proof.
  revert colors; induction entries as [|e t IH]; intros colors H; simpl in H.
  - inversion H. constructor.
  - destruct (entry_color e) as [c|] eqn:Ec; [|discriminate].
    destruct (all_colors t) as [cs|]; [|discriminate].
    inversion H; subst. constructor; [now apply (entry_color_range e)|auto].
Qed.

Lemma parse_palette_Ok s colors :
  parse_palette s = Ok colors
  <-> all_colors (palette_entries s) = Some colors /\ colors <> [].
Proof.
  rewrite parse_palette_entries.
  destruct (all_colors (palette_entries s)) as [[|c cs]|].
  - split; [discriminate|]. intros [H N]. inversion H; subst. congruence.
  - split.
    + intros H; inversion H; subst. split; [reflexivity|discriminate].
    + intros [H _]. now inversion H.
  - split; [discriminate|]. intros [H _]. discriminate H.
Qed.

Lemma flatten_colors_range colors :
  Forall (fun c => Forall byte_value (channels c)) colors ->
  Forall byte_value (flatten_colors colors).
Proof.
  induction 1 as [|[[r g] b] l Hc _ IH]; [constructor|].
  change (flatten_colors ((r, g, b) :: l)) with (r :: g :: b :: flatten_colors l).
  simpl in Hc. inversion Hc as [|? ? Hr Hc1]; subst.
  inversion Hc1 as [|? ? Hg Hc2]; subst. inversion Hc2 as [|? ? Hb _]; subst.
  constructor; [exact Hr|]. constructor; [exact Hg|]. constructor; [exact Hb|].
  exact IH.
Qed.

Lemma parsed_palette_table s colors :
  parse_palette s = Ok colors ->
  Forall (fun c => Forall byte_value (channels c)) colors
  /\ exists table,
       build_palette_table colors = Ok table
       /\ List.length table = 768%nat
       /\ Forall byte_value table.
Proof.
  intros H. apply parse_palette_Ok in H. destruct H as [Hall Hne].
  pose proof (all_colors_range _ _ Hall) as Hr. split; [exact Hr|].
  destruct colors as [|c cs]; [congruence|].
  assert (Hb : build_palette_table (c :: cs)
               = Ok (flatten_colors
                       (firstn 256 (c :: cs)
                        ++ repeat c (256 - List.length (c :: cs))))
               /\ List.length
                    (flatten_colors
                       (firstn 256 (c :: cs)
                        ++ repeat c (256 - List.length (c :: cs)))) = 768%nat).
  { destruct (Nat.lt_ge_cases (List.length (c :: cs)) 256) as [Hlt|Hge].
    - rewrite firstn_all2 by lia. split.
      + apply (build_palette_table_short _ c cs eq_refl Hlt).
      + rewrite flatten_colors_length, length_app, repeat_length. lia.
    - replace (256 - List.length (c :: cs))%nat with O by lia.
      cbn [repeat]. rewrite app_nil_r. split.
      + apply build_palette_table_long. exact Hge.
      + rewrite flatten_colors_length, firstn_length_le by exact Hge.
        reflexivity. }
  destruct Hb as [Hb Hl].
  eexists. split; [exact Hb|]. split; [exact Hl|].
  apply flatten_colors_range. apply Forall_app. split.
  - apply Forall_forall. intros x Hx.
    rewrite Forall_forall in Hr. apply Hr.
    rewrite <- (firstn_skipn 256 (c :: cs)). apply in_or_app. now left.
  - apply Forall_forall. intros x Hx. apply repeat_spec in Hx. subst.
    now inversion Hr.
Qed.

(** X5.  Every colour [parse_palette] returns has its three channels in
    0..255, and the table [build_palette_table] makes of the returned list
    always exists, with 768 values in 0..255: after a successful parse the
    palette step of [main] cannot fail in [build_palette_table]. *)
Theorem parsed_palette_builds s colors :
  parse_palette s = Ok colors ->
  Forall (fun c => Forall byte_value (channels c)) colors
  /\ exists table,
       build_palette_table colors = Ok table
       /\ List.length table = 768%nat
       /\ Forall byte_value table.
Proof.
  apply parsed_palette_table.
Qed.

Lemma parsed_palette_builds_witness :
  exists table,
    build_palette_table [(0, 0, 0); (255, 255, 255)] = Ok table
    /\ List.length table = 768%nat
    /\ Forall byte_value table.
Proof.
  apply (parsed_palette_builds (lit "0,0,0;255,255,255")
           [(0, 0, 0); (255, 255, 255)]).
  reflexivity.
Defined.

(** ** Joining palette strings *)

Lemma palette_entries_app s1 s2 :
  palette_entries (s1 ++ ";"%char :: s2) = palette_entries s1 ++ palette_entries s2.
Proof.
  unfold palette_entries. now rewrite split_app, map_app, filter_app.
Qed.

Lemma all_colors_app l1 l2 :
  all_colors (l1 ++ l2)
  = match all_colors l1, all_colors l2 with
    | Some a, Some b => Some (a ++ b)
    | _, _ => None
    end.
Proof.
  induction l1 as [|e t IH]; simpl.
  - destruct (all_colors l2); reflexivity.
  - destruct (entry_color e); [|reflexivity]. rewrite IH.
    destruct (all_colors t); [|reflexivity].
    destruct (all_colors l2); reflexivity.
Qed.

(** X6.  Two palette strings that parse, joined by a semicolon, parse to
    the concatenation of their colours; if either part holds an invalid
    entry the joined string is rejected; and a leading or a trailing
    semicolon never changes the result. *)
Theorem parse_palette_join s1 s2 :
  (forall c1 c2,
     parse_palette s1 = Ok c1 -> parse_palette s2 = Ok c2 ->
     parse_palette (s1 ++ ";"%char :: s2) = Ok (c1 ++ c2))
  /\ (all_colors (palette_entries s1) = None
      \/ all_colors (palette_entries s2) = None ->
      parse_palette (s1 ++ ";"%char :: s2) = Raise ValueError)
  /\ parse_palette (";"%char :: s1) = parse_palette s1
  /\ parse_palette (s1 ++ [";"%char]) = parse_palette s1.
Proof.
  split; [|split; [|split]].
  - intros c1 c2 H1 H2.
    apply parse_palette_Ok in H1, H2. destruct H1 as [A1 N1], H2 as [A2 N2].
    apply parse_palette_Ok. rewrite palette_entries_app, all_colors_app, A1, A2.
    split; [reflexivity|]. destruct c1; [congruence|discriminate].
  - intros H. rewrite parse_palette_entries, palette_entries_app, all_colors_app.
    destruct H as [-> | ->]; [reflexivity|].
    destruct (all_colors (palette_entries s1)); reflexivity.
  - rewrite !parse_palette_entries.
    change (";"%char :: s1) with ([] ++ ";"%char :: s1).
    now rewrite palette_entries_app.
  - rewrite !parse_palette_entries, palette_entries_app.
    change (palette_entries []) with (@nil str). now rewrite app_nil_r.
Qed.

(** ** The size argument *)

Example parse_size_examples :
  map (fun s => parse_size (lit s)) ["800x480"; "1200*1600"; "800X480"; " 7 x+8"]%string
  = [Ok (800, 480); Ok (1200, 1600); Ok (800, 480); Ok (7, 8)]
  /\ map (fun s => parse_size (lit s)) ["800"; "800x480x3"; "800xabc"; "x"]%string
     = repeat (Raise ValueError) 4.
Proof. split; reflexivity. Qed.

Lemma size_norm_map s :
  py_replace "*"%char "x"%char (py_lower s) = map size_norm_char s.
Proof.
  unfold py_replace, py_lower. rewrite map_map. reflexivity.
Qed.

Lemma size_norm_char_separator c :
  Ascii.eqb (size_norm_char c) "x"%char = is_size_separator c.
Proof.
  destruct c as [[] [] [] [] [] [] [] []]; vm_compute; reflexivity.
Qed.

Lemma size_norm_char_other c :
  is_size_separator c = false -> size_norm_char c = py_lower_char c.
Proof.
  destruct c as [[] [] [] [] [] [] [] []]; vm_compute; intros H;
    solve [reflexivity | discriminate H].
Qed.

Lemma size_norm_plain s :
  Forall (fun c => is_size_separator c = false) s ->
  map size_norm_char s = py_lower s
  /\ Forall (fun c => Ascii.eqb c "x"%char = false) (py_lower s).
Proof.
  induction 1 as [|c t Hc _ [IH1 IH2]]; simpl; [split; constructor|].
  rewrite IH1, (size_norm_char_other c Hc). split; [reflexivity|].
  constructor; [|exact IH2].
  rewrite <- (size_norm_char_other c Hc), size_norm_char_separator. exact Hc.
Qed.

Lemma split_length sep s :
  List.length (split sep s)
  = S (List.length (filter (fun c => Ascii.eqb c sep) s)).
Proof.
  induction s as [|c t IH]; simpl; [reflexivity|].
  destruct (Ascii.eqb c sep); simpl; [now rewrite IH|].
  pose proof (split_nonempty sep t) as N.
  destruct (split sep t) as [|h r]; [congruence|]. simpl in *. exact IH.
Qed.

Lemma map_result_length {A B : Type} (f : A -> result B) l bs :
  map_result f l = Ok bs -> List.length bs = List.length l.
Proof.
  revert bs; induction l as [|a t IH]; intros bs H; simpl in H.
  - now inversion H.
  - destruct (f a) as [b|e]; simpl in H; [|discriminate].
    destruct (map_result f t) as [bs'|e]; simpl in H; [|discriminate].
    inversion H; subst. simpl. now rewrite (IH bs').
Qed.

Lemma map_result_int_raises l e :
  map_result py_int l = Raise e -> e = ValueError.
Proof.
  induction l as [|a t IH]; simpl; intros H; [discriminate|].
  destruct (py_int a) as [b|e1] eqn:E1; simpl in H.
  - destruct (map_result py_int t) as [bs|e2]; simpl in H; [discriminate|].
    inversion H; subst. now apply IH.
  - inversion H; subst. now apply (py_int_raises a).
Qed.

(** X7.  The size argument is read as two integers around exactly one
    separator, which may be [x], [X] or [*] alike: for two separator-free
    fields the result is that of [int] on each lower-cased field; a size
    that parses holds exactly one separator character; and every failure is
    a ValueError. *)
Theorem parse_size_separator s :
  (forall a b sep,
     is_size_separator sep = true ->
     Forall (fun c => is_size_separator c = false) a ->
     Forall (fun c => is_size_separator c = false) b ->
     parse_size (a ++ sep :: b)
     = (w <- py_int (py_lower a) ;; h <- py_int (py_lower b) ;; Ok (w, h)))
  /\ (forall w h,
        parse_size s = Ok (w, h) ->
        List.length (filter is_size_separator s) = 1%nat)
  /\ (forall e, parse_size s = Raise e -> e = ValueError).
Proof.
  split; [|split].
  - intros a b sep Hsep Ha Hb. unfold parse_size.
    rewrite size_norm_map, map_app. cbn [map].
    destruct (size_norm_plain a Ha) as [Ea Xa].
    destruct (size_norm_plain b Hb) as [Eb Xb].
    rewrite Ea, Eb.
    assert (Es : size_norm_char sep = "x"%char).
    { apply Ascii.eqb_eq. now rewrite size_norm_char_separator. }
    rewrite Es, split_app, (split_no_sep _ _ Xa), (split_no_sep _ _ Xb).
    cbn [app map_result].
    destruct (py_int (py_lower a)) as [w|e]; cbn [bind]; [|reflexivity].
    destruct (py_int (py_lower b)) as [h|e]; reflexivity.
  - intros w h H. unfold parse_size in H. rewrite size_norm_map in H.
    destruct (map_result py_int _) as [ints|e] eqn:E; cbn [bind] in H;
      [|discriminate].
    apply map_result_length in E. rewrite split_length in E.
    destruct ints as [|i0 [|i1 [|i2 l]]]; try discriminate.
    simpl in E. injection E as E.
    rewrite E. clear.
    induction s as [|c t IH]; simpl; [reflexivity|].
    rewrite size_norm_char_separator.
    destruct (is_size_separator c); simpl; now rewrite IH.
  - intros e H. unfold parse_size in H.
    destruct (map_result py_int _) as [ints|e1] eqn:E; cbn [bind] in H.
    + destruct ints as [|i0 [|i1 [|i2 l]]]; inversion H; reflexivity.
    + inversion H; subst. now apply (map_result_int_raises _ _ E).
Qed.

(** ** Orientation *)

(** X8.  After the orientation step an image that is not square lies the
    way the target does (landscape exactly when the target is), its size is
    kept or transposed, and the width and height the script carries on with
    are those of the image. *)
Theorem orient_matches_target im tw th rot angle :
  width im <> height im ->
  (snd (snd (orient im tw th rot angle)) <? fst (snd (orient im tw th rot angle)))
  = (th <? tw)
  /\ size (fst (orient im tw th rot angle)) = snd (orient im tw th rot angle)
  /\ (snd (orient im tw th rot angle) = size im
      \/ snd (orient im tw th rot angle)
         = (Z.of_nat (height im), Z.of_nat (width im))).
Proof.
  intros Hne. unfold orient, size.
  destruct (Z.ltb_spec (Z.of_nat (height im)) (Z.of_nat (width im))) as [H1|H1];
    destruct (Z.ltb_spec th tw) as [H2|H2]; cbn [Bool.eqb negb];
    destruct rot; destruct angle; cbn [fst snd width height Image_rotate_expand
                                      Image_rotate_180];
    (split; [|split; [reflexivity|auto]]).
  all: try (apply Z.ltb_lt; lia).
  all: try (apply Z.ltb_ge; lia).
Qed.

Lemma orient_matches_target_witness :
  snd (orient (mkImage 480 640 (fun _ _ => (0, 0, 0))) 800 480 false angle_270)
  = (640, 480).
Proof.
  destruct (orient_matches_target (mkImage 480 640 (fun _ _ => (0, 0, 0)))
              800 480 false angle_270) as (_ & _ & [H|H]).
  - simpl. lia.
  - vm_compute in H. discriminate H.
  - exact H.
Defined.

(** ** Scaling by a whole factor, and images already of the target size *)

Lemma int_of_float_inject z : int_of_float (inject_Z z) = z.
Proof.
  unfold int_of_float, inject_Z. cbn [Qnum Qden]. apply Z.quot_1_r.
Qed.

Lemma float_mul_int a b :
  Z.abs a < 2 ^ 53 -> Z.abs (a * b) < 2 ^ 53 ->
  float_mul (float_of_int a) (inject_Z b) = inject_Z (a * b).
Proof.
  intros Ha Hab. unfold float_mul, float_of_int. rewrite (fl64_int a Ha).
  rewrite <- (fl64_int (a * b) Hab). apply fl64_compat.
  unfold Qeq, Qmult, inject_Z; cbn [Qnum Qden]. lia.
Qed.

Lemma scale_size_factor w h k :
  1 <= w -> 1 <= h -> 1 <= k -> k * w < 2 ^ 53 -> k * h < 2 ^ 53 ->
  scale_size w h (k * w) (k * h) = Ok (k * w, k * h).
Proof.
  intros Hw Hh Hk Bw Bh. unfold scale_size.
  assert (Kb : Z.abs k < 2 ^ 53) by nia.
  rewrite (truediv_exact k w) by lia. rewrite (truediv_exact k h) by lia.
  cbn [bind]. unfold py_max.
  assert (T : Qle_bool (inject_Z k) (inject_Z k) = true)
    by (apply Qle_bool_iff, Qle_refl).
  rewrite T. rewrite !float_mul_int by nia.
  rewrite !int_of_float_inject. now rewrite (Z.mul_comm w), (Z.mul_comm h).
Qed.

Section WholeFactor.

Variable resample : image -> nat -> nat -> nat -> nat -> rgb.

Lemma normalize_scale_factor im k (rot : bool) angle :
  (1 <= width im)%nat -> (1 <= height im)%nat -> 1 <= k ->
  k * Z.of_nat (width im) < 2 ^ 53 -> k * Z.of_nat (height im) < 2 ^ 53 ->
  exists resized out,
    Image_resize resample (if rot then Image_rotate_180 im else im)
      (k * Z.of_nat (width im), k * Z.of_nat (height im)) = Ok resized
    /\ normalize resample im (k * Z.of_nat (width im)) (k * Z.of_nat (height im))
         rot angle scale = Ok out
    /\ size out = (k * Z.of_nat (width im), k * Z.of_nat (height im))
    /\ forall x y, (x < width out)%nat -> (y < height out)%nat ->
         getpixel out x y = getpixel resized x y.
Proof.
  intros Hw Hh Hk Bw Bh.
  set (W := Z.of_nat (width im)) in *. set (H := Z.of_nat (height im)) in *.
  assert (HW : 1 <= W) by (unfold W; lia).
  assert (HH : 1 <= H) by (unfold H; lia).
  unfold normalize.
  rewrite (orient_same_aspect im (k * W) (k * H) rot angle) by (fold W H; nia).
  fold W H. rewrite (scale_size_factor W H k) by assumption. cbn [bind].
  set (im' := if rot then Image_rotate_180 im else im).
  assert (Hsz : size im' = (W, H)) by (unfold im'; destruct rot; reflexivity).
  destruct (Image_resize_spec resample im' (k * W, k * H)) as [_ Hgood];
    [rewrite Hsz; exact HW|rewrite Hsz; exact HH|].
  destruct Hgood as (resized & Er & Sr); [simpl; nia|simpl; nia|].
  rewrite Er. cbn [bind].
  destruct (Image_new_ok (k * W, k * H) white) as (canvas & Ec & Sc);
    [simpl; nia|simpl; nia|].
  rewrite Ec. cbn [bind].
  exists resized. eexists. split; [reflexivity|]. split; [reflexivity|].
  split; [now rewrite Image_paste_size|].
  intros x y Hx Hy. rewrite !Z.sub_diag. change (0 / 2) with 0.
  unfold Image_paste in *. cbn [getpixel width height] in *.
  unfold size in Sr, Sc. injection Sr as Srw Srh. injection Sc as Scw Sch.
  rewrite !Z.sub_0_r, !Nat2Z.id.
  assert (T : ((0 <=? Z.of_nat x) && (Z.of_nat x <? Z.of_nat (width resized))
               && (0 <=? Z.of_nat y) && (Z.of_nat y <? Z.of_nat (height resized)))
              = true).
  { rewrite !andb_true_iff. repeat split;
      [apply Z.leb_le|apply Z.ltb_lt|apply Z.leb_le|apply Z.ltb_lt]; lia. }
  now rewrite T.
Qed.

(** X9.  In scale mode, when the target is the image's size times a whole
    factor [k] (sizes below 2^53), the size asked of [resize] is exactly the
    target, and the result is the resized image itself: it fills the canvas
    from the corner, nothing is cropped and no white is left. *)
Theorem normalize_scale_whole_factor im k (rot : bool) angle :
  (1 <= width im)%nat -> (1 <= height im)%nat -> 1 <= k ->
  k * Z.of_nat (width im) < 2 ^ 53 -> k * Z.of_nat (height im) < 2 ^ 53 ->
  scale_size (Z.of_nat (width im)) (Z.of_nat (height im))
    (k * Z.of_nat (width im)) (k * Z.of_nat (height im))
  = Ok (k * Z.of_nat (width im), k * Z.of_nat (height im))
  /\ exists resized out,
       Image_resize resample (if rot then Image_rotate_180 im else im)
         (k * Z.of_nat (width im), k * Z.of_nat (height im)) = Ok resized
       /\ normalize resample im (k * Z.of_nat (width im)) (k * Z.of_nat (height im))
            rot angle scale = Ok out
       /\ size out = (k * Z.of_nat (width im), k * Z.of_nat (height im))
       /\ forall x y, (x < width out)%nat -> (y < height out)%nat ->
            getpixel out x y = getpixel resized x y.
Proof.
  intros Hw Hh Hk Bw Bh. split.
  - apply scale_size_factor; lia.
  - now apply normalize_scale_factor.
Qed.

(** X10.  An image that already has the target size (below 2^53) comes
    back pixel for pixel, in scale mode and in cut mode alike, turned by a
    half turn when [--rotate-180] is given. *)
Theorem normalize_target_sized_image im (rot : bool) angle mode :
  (1 <= width im)%nat -> (1 <= height im)%nat ->
  Z.of_nat (width im) < 2 ^ 53 -> Z.of_nat (height im) < 2 ^ 53 ->
  exists out,
    normalize resample im (Z.of_nat (width im)) (Z.of_nat (height im))
      rot angle mode = Ok out
    /\ size out = size im
    /\ forall x y, (x < width im)%nat -> (y < height im)%nat ->
         getpixel out x y
         = getpixel (if rot then Image_rotate_180 im else im) x y.
Proof.
  intros Hw Hh Bw Bh.
  set (im' := if rot then Image_rotate_180 im else im).
  assert (Hsz : size im' = size im) by (unfold im'; destruct rot; reflexivity).
  destruct mode.
  - destruct (normalize_scale_factor im 1 rot angle Hw Hh) as
      (resized & out & Er & En & So & Hpx); [lia|lia|lia|].
    rewrite !Z.mul_1_l in *. fold im' in Er.
    assert (Eim : resized = im').
    { unfold Image_resize in Er. rewrite Hsz in Er. unfold size in Er.
      assert (T : size_eqb (Z.of_nat (width im), Z.of_nat (height im))
                    (Z.of_nat (width im), Z.of_nat (height im)) = true)
        by now apply size_eqb_eq.
      rewrite T in Er. now inversion Er. }
    subst resized. exists out. split; [exact En|]. split; [exact So|].
    intros x y Hx Hy. apply Hpx.
    + unfold size in So. injection So as Sw _. lia.
    + unfold size in So. injection So as _ Sh. lia.
  - destruct (normalize_cut_same_aspect resample im (Z.of_nat (width im))
                (Z.of_nat (height im)) rot angle Hw Hh) as (out & En & So & Er);
      [lia|lia|lia|exact Bw|].
    fold im' in Er.
    assert (Ecrop : out = Image_crop im'
                            (0, 0, Z.of_nat (width im), Z.of_nat (height im))).
    { unfold Image_resize in Er.
      rewrite (crop_full_size im' _ _ Hsz) in Er.
      assert (T : size_eqb (Z.of_nat (width im), Z.of_nat (height im))
                    (Z.of_nat (width im), Z.of_nat (height im)) = true)
        by now apply size_eqb_eq.
      rewrite T in Er. now inversion Er. }
    exists out. split; [exact En|]. split; [exact So|].
    intros x y Hx Hy. rewrite Ecrop. unfold Image_crop. cbn [getpixel].
    rewrite !Z.add_0_r, !Nat2Z.id.
    assert (Wd : width im' = width im) by (unfold im'; destruct rot; reflexivity).
    assert (Hd : height im' = height im) by (unfold im'; destruct rot; reflexivity).
    rewrite Wd, Hd.
    assert (T : ((0 <=? Z.of_nat x) && (Z.of_nat x <? Z.of_nat (width im))
                 && (0 <=? Z.of_nat y) && (Z.of_nat y <? Z.of_nat (height im)))
                = true).
    { rewrite !andb_true_iff. repeat split;
        [apply Z.leb_le|apply Z.ltb_lt|apply Z.leb_le|apply Z.ltb_lt]; lia. }
    now rewrite T.
Qed.

End WholeFactor.

Lemma normalize_scale_whole_factor_witness :
  scale_size 400 240 800 480 = Ok (800, 480).
Proof.
  apply (proj1 (normalize_scale_whole_factor nearest_resample
                  (mkImage 400 240 (fun _ _ => (0, 0, 0))) 2 false angle_90
                  ltac:(simpl; lia) ltac:(simpl; lia) ltac:(lia)
                  ltac:(vm_compute; reflexivity) ltac:(vm_compute; reflexivity))).
Defined.

Lemma normalize_target_sized_image_witness :
  exists out,
    normalize nearest_resample (of_rows 2 [[(255, 0, 0); (0, 0, 255)]]) 2 1
      true angle_90 cut = Ok out
    /\ size out = (2, 1)
    /\ forall x y, (x < 2)%nat -> (y < 1)%nat ->
         getpixel out x y
         = getpixel (Image_rotate_180 (of_rows 2 [[(255, 0, 0); (0, 0, 255)]])) x y.
Proof.
  apply (normalize_target_sized_image nearest_resample
           (of_rows 2 [[(255, 0, 0); (0, 0, 255)]]) true angle_90 cut).
  - simpl; lia.
  - simpl; lia.
  - vm_compute; reflexivity.
  - vm_compute; reflexivity.
Defined.

(** ** The exit status of scripts/dither.py *)

Ltac main_absurd :=
  intros;
  repeat match goal with
         | H : exists _, _ |- _ => destruct H
         | H : _ /\ _ |- _ => destruct H
         end;
  congruence.

Section MainProofs.

Variable Image_open_RGB : list Z -> result image.
Variable putpalette : list Z -> result unit.
Variable quantize_RGB : dither_arg -> list Z -> image -> result image.
Variable save_PNG : image -> result (list Z).

(** [putpalette] takes a table of 768 byte values. *)
Hypothesis putpalette_accepts :
  forall t, List.length t = 768%nat -> Forall byte_value t -> putpalette t = Ok tt.

(** X11.  [main] exits with 1 exactly on empty input, with 2 exactly when
    the input does not decode, with 3 exactly when [parse_palette] rejects
    the palette argument (a parsed palette always gives a table that is
    installed), with 4 exactly when quantizing or encoding fails, and with 0
    exactly when they succeed, stdout then holding the encoder's bytes; with
    any other status than 0 nothing is written to stdout. *)
Theorem main_exit_status raw palette dither :
  let r := main Image_open_RGB putpalette quantize_RGB save_PNG
             raw palette dither in
  (fst r = 1 <-> raw = [])
  /\ (fst r = 2 <-> raw <> [] /\ exists e, Image_open_RGB raw = Raise e)
  /\ (fst r = 3
      <-> raw <> [] /\ (exists img, Image_open_RGB raw = Ok img)
          /\ exists e, parse_palette palette = Raise e)
  /\ (fst r = 4
      <-> exists img colors table e,
            raw <> [] /\ Image_open_RGB raw = Ok img
            /\ parse_palette palette = Ok colors
            /\ build_palette_table colors = Ok table
            /\ (q <- quantize_RGB dither table img ;; save_PNG q) = Raise e)
  /\ (fst r = 0
      <-> exists img colors table q,
            raw <> [] /\ Image_open_RGB raw = Ok img
            /\ parse_palette palette = Ok colors
            /\ build_palette_table colors = Ok table
            /\ quantize_RGB dither table img = Ok q
            /\ save_PNG q = Ok (snd r))
  /\ (fst r <> 0 -> snd r = []).
Proof.
  cbv zeta. unfold main. destruct raw as [|b raw'].
  { cbn [fst snd]. repeat split; try main_absurd; try reflexivity. }
  destruct (Image_open_RGB (b :: raw')) as [img|e] eqn:Eo.
  2:{ cbn [fst snd]. repeat split; try main_absurd; try reflexivity.
      exists e. reflexivity. }
  destruct (parse_palette palette) as [colors|e] eqn:Ep.
  2:{ cbn [bind fst snd]. repeat split; try main_absurd; try reflexivity.
      - exists img. reflexivity.
      - exists e. reflexivity. }
  destruct (parsed_palette_table _ _ Ep) as (_ & table & Eb & Hl & Hr).
  cbn [bind]. rewrite Eb. cbn [bind].
  rewrite (putpalette_accepts table Hl Hr). cbn [bind].
  destruct (quantize_RGB dither table img) as [q|e] eqn:Eq.
  2:{ cbn [bind fst snd]. repeat split; try main_absurd; try reflexivity.
      exists img, colors, table, e. rewrite Eq. repeat split; congruence. }
  cbn [bind]. destruct (save_PNG q) as [out|e] eqn:Es.
  2:{ cbn [fst snd]. repeat split; try main_absurd; try reflexivity.
      exists img, colors, table, e. rewrite Eq. cbn [bind].
      repeat split; congruence. }
  cbn [fst snd]. repeat split; try main_absurd; try reflexivity.
  - intros (img0 & colors0 & table0 & e & _ & E1 & E2 & E3 & E4).
    injection E1 as <-. injection E2 as <-. rewrite Eb in E3.
    injection E3 as <-. rewrite Eq in E4. cbn [bind] in E4. congruence.
  - intros _. exists img, colors, table, q. repeat split; congruence.
Qed.

End MainProofs.

Lemma main_exit_status_witness :
  fst (main (fun _ => Ok (mkImage 1 1 (fun _ _ => (0, 0, 0))))
         (fun _ => Ok tt) (fun _ _ img => Ok img) (fun _ => Ok [137; 80; 78; 71])
         [66; 77] (lit "0,0,0;300,0,0") none) = 3
  <-> [66; 77] <> []
      /\ (exists img, Ok (mkImage 1 1 (fun _ _ => (0, 0, 0))) = Ok img)
      /\ exists e, parse_palette (lit "0,0,0;300,0,0") = Raise e.
Proof.
  apply (proj1 (proj2 (proj2
           (main_exit_status (fun _ => Ok (mkImage 1 1 (fun _ _ => (0, 0, 0))))
              (fun _ => Ok tt) (fun _ _ img => Ok img)
              (fun _ => Ok [137; 80; 78; 71])
              (fun t _ _ => eq_refl) [66; 77] (lit "0,0,0;300,0,0") none)))).
Defined.
